(** * cxxmetrics: the typed metrics registry and the skiplist

    A shallow embedding of [metrics_registry.hpp] (the registry, its
    repository and the per-path containers) and of the ordered skiplist
    exercised by [skiplist_test.cpp], with the properties of the
    specification stated and settled over them. *)

From Stdlib Require Import ZArith Lia.
From stdpp Require Import gmap strings list fin_maps sorting.

(** * Part I: the skiplist, its model *)

Module Skiplist.

(** The skiplist of [skiplist.hpp], which [skiplist_test.cpp] drives. The
    header is missing from the sources, so the list is modelled from the
    specification, which gives the structure (nodes with a key and forward
    pointers that carry a deletion mark), the algorithms of search, insert
    and erase, and the iterator. The logical state is the bottom-level list,
    the upper levels being shortcuts, so the model is the bottom level: one
    forward pointer per node. Calls run one after the other, so a
    compare-and-swap succeeds at its first try. Nodes are not reclaimed while
    an iterator may hold them: the arena only grows, and an address stands
    for its node for good. Keys are any totally ordered type; integers
    here. *)

(** Modelled from the spec: a node of [skiplist.hpp], its key and its
    level-0 forward pointer with the deletion mark. *)
Record node := {
  key : Z;
  next : option nat;
  marked : bool
}.

(** Modelled from the spec: the list of [skiplist.hpp], the arena of nodes
    by address and the forward pointer of the head. *)
Record skiplist := {
  nodes : list node;
  head : option nat
}.

(** Modelled from the spec: the list as its constructor leaves it. *)
Definition empty : skiplist := {| nodes := []; head := None |}.

(** Modelled from the spec: an iterator points at a node; [end()] points at
    none. *)
Definition iterator := option nat.

(** Modelled from the spec: the write of a forward pointer, of the head
    ([pred = None]) or of a node. *)
Definition set_next (pred : option nat) (target : option nat) (s : skiplist) : skiplist :=
  match pred with
  | None => {| nodes := nodes s; head := target |}
  | Some p =>
      {| nodes := alter (fun n => {| key := key n; next := target; marked := marked n |})
                        p (nodes s);
         head := head s |}
  end.

(** Modelled from the spec: a node is created on insert; it takes the next
    address of the arena. *)
Definition alloc (n : node) (s : skiplist) : skiplist :=
  {| nodes := nodes s ++ [n]; head := head s |}.

(** Modelled from the spec: setting the deletion mark of the forward pointer
    of node [c], the linearization point of a removal. *)
Definition set_mark (c : nat) (s : skiplist) : skiplist :=
  {| nodes := alter (fun n => {| key := key n; next := next n; marked := true |})
                    c (nodes s);
     head := head s |}.

(** Modelled from the spec: the search, on the bottom level. It walks from
    [cur], with [pred] the node (or the head) whose pointer led there, to the
    first unmarked node whose key is not below [k]; a marked node met on the
    way is unlinked from [pred] before the walk goes on (help-on-traverse).
    The result is the list after the unlinks, the rightmost predecessor and
    the successor. *)
Fixpoint search (fuel : nat) (k : Z) (pred cur : option nat) (s : skiplist)
  : option (skiplist * option nat * option nat) :=
  match fuel with
  | 0 => None
  | S fuel' =>
      match cur with
      | None => Some (s, pred, None)
      | Some c =>
          match nodes s !! c with
          | None => None
          | Some n =>
              if marked n then
                search fuel' k pred (next n) (set_next pred (next n) s)
              else if (key n <? k)%Z then search fuel' k (Some c) (next n) s
              else Some (s, pred, Some c)
          end
      end
  end.

(** A walk visits a node at most once, so one step more than there are
    nodes is enough for any of them. *)
Definition fuel_of (s : skiplist) : nat := S (length (nodes s)).

(** Modelled from the spec: the search from the head. *)
Definition locate (k : Z) (s : skiplist) : option (skiplist * option nat * option nat) :=
  search (fuel_of s) k None (head s) s.

(** Modelled from the spec: whether the successor found by a search has
    key [k]. *)
Definition holds (k : Z) (succ : option nat) (s : skiplist) : bool :=
  match succ with
  | None => false
  | Some c =>
      match nodes s !! c with
      | Some n => (key n =? k)%Z
      | None => false
      end
  end.

(** Modelled from the spec: [insert(key) -> bool]. Search; if the successor
    has the key (it is unmarked), return false; otherwise allocate a node
    that points at the successor and swing the predecessor to it. *)
Definition insert (k : Z) (s : skiplist) : option (bool * skiplist) :=
  match locate k s with
  | None => None
  | Some (s1, pred, succ) =>
      if holds k succ s1 then Some (false, s1)
      else
        let fresh := length (nodes s1) in
        Some (true,
              set_next pred (Some fresh)
                (alloc {| key := k; next := succ; marked := false |} s1))
  end.

(** Modelled from the spec: [find(key) -> iterator], at the node with the
    key or at the end; marked nodes are ignored. *)
Definition find (k : Z) (s : skiplist) : option (iterator * skiplist) :=
  match locate k s with
  | None => None
  | Some (s1, pred, succ) => Some (if holds k succ s1 then succ else None, s1)
  end.

(** Modelled from the spec: [erase(iter) -> bool]. False at the end and on a
    node that is already marked; otherwise mark the forward pointer, then
    unlink the node, which a search for its key does. *)
Definition erase (it : iterator) (s : skiplist) : option (bool * skiplist) :=
  match it with
  | None => Some (false, s)
  | Some c =>
      match nodes s !! c with
      | None => Some (false, s)
      | Some n =>
          if marked n then Some (false, s)
          else
            match locate (key n) (set_mark c s) with
            | None => None
            | Some (s', _, _) => Some (true, s')
            end
      end
  end.

(** Modelled from the spec: the walk of an iterator along the level-0
    forward pointers from [cur], past marked nodes and past nodes whose key
    is not above the key yielded last ([after]; none before the first). *)
Fixpoint skip (fuel : nat) (after : option Z) (cur : option nat) (s : skiplist)
  : option iterator :=
  match fuel with
  | 0 => None
  | S fuel' =>
      match cur with
      | None => Some None
      | Some c =>
          match nodes s !! c with
          | None => None
          | Some n =>
              if marked n
                 || match after with Some x => (key n <=? x)%Z | None => false end
              then skip fuel' after (next n) s
              else Some (Some c)
          end
      end
  end.

(** Modelled from the spec: [begin()], at the first live node. *)
Definition begin (s : skiplist) : option iterator := skip (fuel_of s) None (head s) s.

(** Modelled from the spec: dereference yields the key of the node. *)
Definition deref (it : iterator) (s : skiplist) : option Z :=
  match it with
  | None => None
  | Some c => key <$> nodes s !! c
  end.

(** Modelled from the spec: increment. The walk goes along the level-0
    forward pointers, past marked nodes and past nodes whose key is not
    above the key yielded last, and stops at the first node left. While the
    node of the iterator is in the list the walk goes on from that node.
    Once the node has been removed, its own pointer is no longer a pointer
    of the list; the spec says what the increment reaches then (the next
    live key above the key yielded last) and not from where, and here the
    walk is taken up at the head, where the rule on keys passes over what
    has been yielded. *)
Definition increment (it : iterator) (s : skiplist) : option iterator :=
  match it with
  | None => Some None
  | Some c =>
      match nodes s !! c with
      | None => None
      | Some n =>
          skip (fuel_of s) (Some (key n)) (if marked n then head s else next n) s
      end
  end.

(** [std::vector<double> values(list.begin(), list.end())] of the tests:
    the keys from an iterator to the end. *)
Fixpoint drain (fuel : nat) (it : iterator) (s : skiplist) : option (list Z) :=
  match fuel with
  | 0 => None
  | S fuel' =>
      match it with
      | None => Some []
      | Some c =>
          match nodes s !! c, increment it s with
          | Some n, Some it' => cons (key n) <$> drain fuel' it' s
          | _, _ => None
          end
      end
  end.

Definition values (s : skiplist) : option (list Z) :=
  match begin s with
  | None => None
  | Some it => drain (fuel_of s) it s
  end.

(** What a client does to a list, as the tests do: [insert(k)], [find(k)],
    [erase(it)] with an iterator it holds. *)
Inductive op :=
| op_insert (k : Z)
| op_find (k : Z)
| op_erase (it : iterator).

Definition step (o : op) (s : skiplist) : option skiplist :=
  match o with
  | op_insert k => snd <$> insert k s
  | op_find k => snd <$> find k s
  | op_erase it => snd <$> erase it s
  end.

Fixpoint run (ops : list op) (s : skiplist) : option skiplist :=
  match ops with
  | [] => Some s
  | o :: ops' =>
      match step o s with
      | None => None
      | Some s' => run ops' s'
      end
  end.

(** ** What holds of a list between calls *)

(** The nodes [l] lead from the pointer [from] to the pointer [to]. *)
Fixpoint seg (s : skiplist) (from : option nat) (l : list nat) (to : option nat) : Prop :=
  match l with
  | [] => from = to
  | c :: l' => from = Some c /\ exists n, nodes s !! c = Some n /\ seg s (next n) l' to
  end.

(** The nodes [l] lead from [cur] to the end of the list. *)
Definition path (s : skiplist) (cur : option nat) (l : list nat) : Prop :=
  seg s cur l None.

(** Every forward pointer leads to a node with a greater key. *)
Definition ordered (s : skiplist) : Prop :=
  forall i n j, nodes s !! i = Some n -> next n = Some j ->
    exists m, nodes s !! j = Some m /\ (key n < key m)%Z.

(** The chain from the head holds the unmarked nodes and no other. *)
Definition chain (s : skiplist) (l : list nat) : Prop :=
  path s (head s) l
  /\ forall i n, nodes s !! i = Some n -> (marked n = false <-> i ∈ l).

Definition wf (s : skiplist) : Prop := ordered s /\ exists l, chain s l.

(** The key at an address. *)
Definition key_at (s : skiplist) (i : nat) : Z :=
  match nodes s !! i with
  | Some n => key n
  | None => 0%Z
  end.

(** The place of [k] in an ascending list. *)
Fixpoint insert_sorted (k : Z) (v : list Z) : list Z :=
  match v with
  | [] => [k]
  | x :: v' => if (x <? k)%Z then x :: insert_sorted k v' else k :: v
  end.

(** From [s] to [s'] the nodes stay where they are, with their keys, and
    a mark stays set. *)
Definition grows (s s' : skiplist) : Prop :=
  forall i n, nodes s !! i = Some n ->
    exists n', nodes s' !! i = Some n' /\ key n' = key n
      /\ (marked n = true -> marked n' = true).

(** What one call leaves of the nodes that were there: their keys; their
    marks, but for the node [e] that the call erased; the pointers of the
    marked nodes and of [e]. *)
Definition after_step (e : option nat) (s s' : skiplist) : Prop :=
  forall i n, nodes s !! i = Some n ->
    exists n', nodes s' !! i = Some n' /\ key n' = key n
      /\ marked n' = (if decide (e = Some i) then true else marked n)
      /\ (marked n = true \/ e = Some i -> next n' = next n).

(** How many nodes of the arena have a key above [x]: what a walk that
    stands on key [x] has left to visit at most. *)
Definition above (x : Z) (l : list node) : nat :=
  length (filter (fun n => (x < key n)%Z) l).

(** The rightmost predecessor once a search that came with [pred] has
    walked the nodes [l]. *)
Definition pred_after (pred : option nat) (l : list nat) : option nat :=
  match last l with Some p => Some p | None => pred end.

End Skiplist.

(** * Part II: the metrics registry *)

Module Registry.

(** Addresses of heap objects. A reference returned by the registry is the
    address of the map node that holds the instrument; nothing is ever freed,
    so the free store is a counter. *)
Definition addr := nat.

(** [class metric_type_mismatch : public std::exception] *)
Record metric_type_mismatch := {
  existing_ : string;
  desired_ : string
}.

Definition existing_metric_type (e : metric_type_mismatch) : string := existing_ e.
Definition desired_metric_type (e : metric_type_mismatch) : string := desired_ e.

(** What a call can throw. *)
Inductive exn :=
| type_mismatch (e : metric_type_mismatch)
| invalid_parameter
| std_exception (what : string).

(** A call either returns or throws. *)
Inductive result (A : Type) :=
| ret (a : A)
| throw (e : exn).
Arguments ret {A} a.
Arguments throw {A} e.

(** The two kinds of [std::mutex] of the file: [basic_default_repository::lock_]
    and [registered_metric::lock_] of the container at hand. *)
Inductive mutex := repository_lock_ | registered_metric_lock_.

#[global] Instance mutex_eq_dec : EqDecision mutex.
Proof. solve_decision. Defined.

(** Modelled from the spec: the instruments of [counter.hpp] and [ewma.hpp],
    both missing from the sources, as far as the examples need them. A
    counter is its value, its snapshot is that scalar and snapshots merge by
    addition; an EWMA keeps its window and interval. *)
Inductive instrument :=
| a_counter (value : Z)
| an_ewma (window interval : Z).

(** Modelled from the spec: [snapshot()] of the instruments of the
    examples. *)
Definition instrument_snapshot (m : instrument) : Z :=
  match m with
  | a_counter value => value
  | an_ewma _ _ => 0%Z
  end.

(** Modelled from the spec: [incr(delta)] of the counter. *)
Definition incr (delta : Z) (m : instrument) : instrument :=
  match m with
  | a_counter value => a_counter (value + delta)
  | an_ewma window interval => an_ewma window interval
  end.

(** Modelled from the spec: the numeric types [TCount] of the counters of the
    examples. The header [counter.hpp] is missing from the sources; the
    spec gives the type name of a counter as "counter" composed with the
    identifier of its numeric type and does not say how the two are put
    together, which is chosen here. *)
Inductive scalar := scalar_int | scalar_int64_t.

(** Modelled from the spec: the identifier of a numeric type. *)
Definition scalar_identifier (TCount : scalar) : string :=
  match TCount with
  | scalar_int => "int"
  | scalar_int64_t => "int64_t"
  end.

(** Modelled from the spec: the type name of [counter<TCount>], "counter"
    composed with the identifier of the numeric type. *)
Definition counter_name (TCount : scalar) : string :=
  "counter<" +:+ scalar_identifier TCount +:+ ">".

Section Registry.

(** [metric_path] and [tag_collection] are declared in headers of their own
    ([metric_path.hpp], [tag_collection.hpp]); the registry uses them as
    hashable keys with structural equality. *)
Context {metric_path tag_collection : Type}.
Context `{Countable metric_path, Countable tag_collection}.

(** The instrument ([TMetricType]) with its [snapshot()] and the snapshot's
    [merge]. *)
Context {TMetric TSnapshot : Type}.
Variable snapshot : TMetric -> TSnapshot.
Variable merge : TSnapshot -> TSnapshot -> TSnapshot.

(** A node of [std::unordered_map<tag_collection, TMetricType>]: the
    instrument and where it lives. *)
Record node := {
  address : addr;
  metric : TMetric
}.

(** [registered_metric<TMetricType>] with the [type_] of its base class. *)
Record registered_metric := {
  type_ : string;
  metrics_ : gmap tag_collection node
}.

(** The observable steps of a call, in program order. *)
Inductive event :=
| acquire (m : mutex)
| release (m : mutex)
| build (tags : tag_collection) (r : result TMetric)
| visit (s : TSnapshot)
| handler (p : metric_path) (c : registered_metric).

(** A finished call: what it returned or threw, the state it left and what
    it did on the way. *)
Record ran (A St : Type) := Ran {
  res : result A;
  st : St;
  log : list event
}.
Arguments Ran {A St} res st log.
Arguments res {A St} r.
Arguments st {A St} r.
Arguments log {A St} r.

(** ** The container *)

(** [basic_metric_builder<TMetricType>::build()] *)
Definition metric_builder := unit -> result TMetric.

(** [registered_metric<TMetricType>::child]. The arguments of [emplace] are
    evaluated before it runs, so a [build()] that throws leaves the map as
    it was; the [lock_guard] releases on both ways out. *)
Definition child (tags : tag_collection) (metricbuilder : metric_builder)
    (this : registered_metric) (free : addr) : ran addr (registered_metric * addr) :=
  match metrics_ this !! tags with
  | Some n =>
      Ran (ret (address n)) (this, free)
          [acquire registered_metric_lock_; release registered_metric_lock_]
  | None =>
      let built := metricbuilder tt in
      match built with
      | ret m =>
          Ran (ret free)
              ({| type_ := type_ this;
                  metrics_ := <[tags := {| address := free; metric := m |}]> (metrics_ this) |},
               S free)
              [acquire registered_metric_lock_; build tags built;
               release registered_metric_lock_]
      | throw e =>
          Ran (throw e) (this, free)
              [acquire registered_metric_lock_; build tags built;
               release registered_metric_lock_]
      end
  end.

(** [basic_registered_metric::tagged]: wraps the constructor call in a
    builder and asks [child]. *)
Definition tagged (tags : tag_collection) (ctor : metric_builder)
    (this : registered_metric) (free : addr) : ran addr (registered_metric * addr) :=
  child tags ctor this free.

(** The loop of [aggregate_all]: [result.merge(itr->second.snapshot())]
    for the remaining nodes. *)
Fixpoint merge_rest (result : TSnapshot) (rest : list (tag_collection * node)) : TSnapshot :=
  match rest with
  | [] => result
  | (_, n) :: rest' => merge_rest (merge result (snapshot (metric n))) rest'
  end.

(** [registered_metric<TMetricType>::aggregate_all], over the iteration
    order of the map. *)
Definition aggregate_all (this : registered_metric) : list event :=
  match map_to_list (metrics_ this) with
  | [] => [acquire registered_metric_lock_; release registered_metric_lock_]
  | (_, n) :: rest =>
      let result := merge_rest (snapshot (metric n)) rest in
      [acquire registered_metric_lock_; release registered_metric_lock_; visit result]
  end.

(** [basic_registered_metric::aggregate] *)
Definition aggregate (this : registered_metric) : list event := aggregate_all this.

(** ** The repository and the registry *)

(** [metrics_registry<default_repository>]: the map of the repository, and
    the free store the nodes are allocated from. *)
Record metrics_registry := {
  repo_ : gmap metric_path registered_metric;
  free_ : addr
}.

(** A registry as its constructor leaves it. *)
Definition empty_registry : metrics_registry := {| repo_ := ∅; free_ := 0 |}.

(** [basic_default_repository::get_or_add] *)
Definition get_or_add (name : metric_path) (builder : unit -> registered_metric)
    (s : metrics_registry) : ran registered_metric metrics_registry :=
  match repo_ s !! name with
  | None =>
      let ptr := builder tt in
      Ran (ret ptr) {| repo_ := <[name := ptr]> (repo_ s); free_ := free_ s |}
          [acquire repository_lock_; release repository_lock_]
  | Some existing =>
      Ran (ret existing) s [acquire repository_lock_; release repository_lock_]
  end.

(** What the handler of a visit of the registry comes to when it is called
    with a path and its container: it returns or throws, and on the way it
    may use the container ([visit], [aggregate], [type]), which leaves
    steps of its own. *)
Definition registered_handler :=
  metric_path -> registered_metric -> result unit * list event.

(** A finished visit of the registry: how it ended, the calls of the handler
    it made, and its log. *)
Record traversed := Traversed {
  outcome : result unit;
  called : list (metric_path * registered_metric);
  trace : list event
}.

(** The loop of [basic_default_repository::visit]. It has no [try]: a
    handler that throws ends it, and the containers behind are not handed
    over. *)
Fixpoint repo_visit_loop (fn : registered_handler)
    (entries : list (metric_path * registered_metric))
  : result unit * list (metric_path * registered_metric) * list event :=
  match entries with
  | [] => (ret tt, [], [])
  | (p, c) :: rest =>
      let did := fn p c in
      match did.1 with
      | ret _ =>
          let r := repo_visit_loop fn rest in
          (r.1.1, (p, c) :: r.1.2, handler p c :: did.2 ++ r.2)
      | throw e => (throw e, [(p, c)], handler p c :: did.2)
      end
  end.

(** [basic_default_repository::visit]: the [lock_guard] is held over the
    whole loop and released on both ways out. *)
Definition repo_visit (fn : registered_handler) (s : metrics_registry) : traversed :=
  let r := repo_visit_loop fn (map_to_list (repo_ s)) in
  Traversed r.1.1 r.1.2
            (acquire repository_lock_ :: r.2 ++ [release repository_lock_]).

(** [metrics_registry::visit_registered_metrics] *)
Definition visit_registered_metrics (fn : registered_handler) (s : metrics_registry)
  : traversed :=
  repo_visit fn s.

(** [metrics_registry::get<TMetricType>(path)]; [mtype] is the type name of
    the template argument. *)
Definition get (mtype : string) (path : metric_path) (s : metrics_registry)
  : ran registered_metric metrics_registry :=
  let r := get_or_add path (fun _ => {| type_ := mtype; metrics_ := ∅ |}) s in
  match res r with
  | ret l =>
      if decide (type_ l = mtype) then r
      else Ran (throw (type_mismatch {| existing_ := type_ l; desired_ := mtype |}))
               (st r) (log r)
  | throw e => r
  end.

(** [metrics_registry::get<TMetricType>(path, tags, args...)]: the container
    is reached by reference, so what [tagged] does to it lands in the
    repository. *)
Definition get_tagged (mtype : string) (path : metric_path) (tags : tag_collection)
    (ctor : metric_builder) (s : metrics_registry) : ran addr metrics_registry :=
  let r := get mtype path s in
  match res r with
  | throw e => Ran (throw e) (st r) (log r)
  | ret l =>
      let k := tagged tags ctor l (free_ (st r)) in
      Ran (res k)
          {| repo_ := <[path := (st k).1]> (repo_ (st r)); free_ := (st k).2 |}
          (log r ++ log k)
  end.

(** The instruments of [counter.hpp] and [ewma.hpp]: their type names and
    constructors. *)
Variable counter_type ewma_type : string.
Variable make_counter : Z -> TMetric.
Variable make_ewma : Z -> Z -> TMetric.

(** Modelled from the spec: the constructor of [ewma], whose header
    [ewma.hpp] is missing from the sources. Construction requires
    W >= I > 0 and raises [invalid_parameter] otherwise. *)
Definition ewma_ctor (window interval : Z) : result TMetric :=
  if decide (0 < interval <= window)%Z then ret (make_ewma window interval)
  else throw invalid_parameter.

(** [metrics_registry::counter<TCount>] for one numeric type [TCount], whose
    counters have the type name [counter_type] and the constructor
    [make_counter]. *)
Definition counter (name : metric_path) (initialValue : Z) (tags : tag_collection)
    (s : metrics_registry) : ran addr metrics_registry :=
  get_tagged counter_type name tags (fun _ => ret (make_counter initialValue)) s.

(** [metrics_registry::ewma] *)
Definition ewma (name : metric_path) (window interval : Z) (tags : tag_collection)
    (s : metrics_registry) : ran addr metrics_registry :=
  get_tagged ewma_type name tags (fun _ => ewma_ctor window interval) s.

(** ** Reading a log *)

(** The outcomes of the [build()] calls made for [tags]. *)
Definition builds (tags : tag_collection) (tr : list event) : list (result TMetric) :=
  omap (fun e => match e with
                 | build t r => if decide (t = tags) then Some r else None
                 | _ => None
                 end) tr.

(** The instruments that [build()] calls handed back. *)
Definition built (rs : list (result TMetric)) : list TMetric :=
  omap (fun r => match r with ret m => Some m | throw _ => None end) rs.

(** The snapshots handed to the snapshot visitor. *)
Definition visits (tr : list event) : list TSnapshot :=
  omap (fun e => match e with visit s => Some s | _ => None end) tr.

(** Whether every call of a callback in the log (the handler of a visit of
    the registry, the snapshot visitor) runs while [m] is not held; [held]
    tells whether it is held at the start. *)
Fixpoint callbacks_outside (m : mutex) (held : bool) (tr : list event) : bool :=
  match tr with
  | [] => true
  | acquire m' :: tr' => callbacks_outside m (if decide (m' = m) then true else held) tr'
  | release m' :: tr' => callbacks_outside m (if decide (m' = m) then false else held) tr'
  | handler _ _ :: tr' | visit _ :: tr' => negb held && callbacks_outside m held tr'
  | build _ _ :: tr' => callbacks_outside m held tr'
  end.

(** Whether every call of a callback in the log runs while [m] is held. *)
Fixpoint callbacks_inside (m : mutex) (held : bool) (tr : list event) : bool :=
  match tr with
  | [] => true
  | acquire m' :: tr' => callbacks_inside m (if decide (m' = m) then true else held) tr'
  | release m' :: tr' => callbacks_inside m (if decide (m' = m) then false else held) tr'
  | handler _ _ :: tr' | visit _ :: tr' => held && callbacks_inside m held tr'
  | build _ _ :: tr' => callbacks_inside m held tr'
  end.

(** ** Runs of calls *)

(** A run of [child] calls on one container, each on the state the last one
    left; the logs are appended. *)
Fixpoint child_calls (calls : list (tag_collection * metric_builder))
    (this : registered_metric) (free : addr) : list event :=
  match calls with
  | [] => []
  | (tags, metricbuilder) :: calls' =>
      let k := child tags metricbuilder this free in
      log k ++ child_calls calls' (st k).1 (st k).2
  end.

(** What a client does with a registry: ask for an instrument (any type
    name, any constructor), or work on an instrument through a reference it
    was given ([incr], [mark], ...). *)
Inductive request :=
| asks (mtype : string) (path : metric_path) (tags : tag_collection) (ctor : metric_builder)
| uses (a : addr) (f : TMetric -> TMetric).

(** The write through a reference: the instrument at [a] becomes [f] of it. *)
Definition use_node (a : addr) (f : TMetric -> TMetric) (n : node) : node :=
  if decide (address n = a) then {| address := address n; metric := f (metric n) |} else n.

Definition use (a : addr) (f : TMetric -> TMetric) (s : metrics_registry) : metrics_registry :=
  {| repo_ := (fun c => {| type_ := type_ c; metrics_ := use_node a f <$> metrics_ c |})
                <$> repo_ s;
     free_ := free_ s |}.

Definition serve (s : metrics_registry) (rq : request) : metrics_registry :=
  match rq with
  | asks mtype path tags ctor => st (get_tagged mtype path tags ctor s)
  | uses a f => use a f s
  end.

Definition serve_all (rqs : list request) (s : metrics_registry) : metrics_registry :=
  foldl serve s rqs.

(** The registry holds, at [path], a container of type name [mtype] whose
    entry for [tags] is the instrument at address [r]. *)
Definition registered (path : metric_path) (mtype : string) (tags : tag_collection)
    (r : addr) (s : metrics_registry) : Prop :=
  exists c n,
    repo_ s !! path = Some c /\ type_ c = mtype
    /\ metrics_ c !! tags = Some n /\ address n = r.

(** The nodes of the registry lie below the free store, and no two of them
    at one address. *)
Definition well_allocated (s : metrics_registry) : Prop :=
  (forall p c t n,
      repo_ s !! p = Some c -> metrics_ c !! t = Some n -> address n < free_ s)
  /\ (forall p c t n p' c' t' n',
      repo_ s !! p = Some c -> metrics_ c !! t = Some n ->
      repo_ s !! p' = Some c' -> metrics_ c' !! t' = Some n' ->
      address n = address n' -> p = p' /\ t = t').

(** ** Visiting the instruments of a container *)

(** What the handler of [basic_registered_metric::visit] is called with: the
    tags and the snapshot of one instrument. It may throw. *)
Definition snapshot_handler := tag_collection -> TSnapshot -> result unit.

(** A finished [visit_each]: how it ended, the calls of the handler it
    made, each with its tags and snapshot, and its log. *)
Record visited := Visited {
  ended : result unit;
  seen : list (tag_collection * TSnapshot);
  steps : list event
}.

(** The loop of [visit_each]: for each node a visitor bound to the tags is
    built in place ([construct]) and called with the snapshot; when it
    throws, the visitor is destroyed and the exception goes on, so the
    nodes behind are not visited. (Where the visitor lives, [alloca] and
    [std::align], is not modelled.) *)
Fixpoint visit_loop (handler : snapshot_handler) (entries : list (tag_collection * node))
  : result unit * list (tag_collection * TSnapshot) :=
  match entries with
  | [] => (ret tt, [])
  | (tags, n) :: rest =>
      let s := snapshot (metric n) in
      match handler tags s with
      | ret _ => let r := visit_loop handler rest in (r.1, (tags, s) :: r.2)
      | throw e => (throw e, [(tags, s)])
      end
  end.

(** [registered_metric<TMetricType>::visit_each]: the [lock_guard] is held
    over the whole loop and released on both ways out. *)
Definition visit_each (handler : snapshot_handler) (this : registered_metric) : visited :=
  let r := visit_loop handler (map_to_list (metrics_ this)) in
  Visited r.1 r.2
          (acquire registered_metric_lock_
             :: map (fun call => visit call.2) r.2
             ++ [release registered_metric_lock_]).

(** [basic_registered_metric::visit]: wraps the handler in a visitor builder
    and asks [visit_each]. *)
Definition visit_tagged (handler : snapshot_handler) (this : registered_metric) : visited :=
  visit_each handler this.

(** The snapshots the handler was called with for [tags]. *)
Definition seen_for (tags : tag_collection) (calls : list (tag_collection * TSnapshot))
  : list TSnapshot :=
  omap (fun call => if decide (call.1 = tags) then Some call.2 else None) calls.

(** The tags and the snapshot of the nodes of a container, in the iteration
    order of the map. *)
Definition snapshots (this : registered_metric) : list (tag_collection * TSnapshot) :=
  (fun pair => (pair.1, snapshot (metric pair.2))) <$> map_to_list (metrics_ this).

(** ** Looking into a registry *)

(** The node that holds the instrument for [tags] at [path], if there is
    one. *)
Definition instrument_at (s : metrics_registry) (path : metric_path)
    (tags : tag_collection) : option node :=
  match repo_ s !! path with
  | Some c => metrics_ c !! tags
  | None => None
  end.

(** ** Counters of all numeric types *)

(** The counters of [counter.hpp] are one instrument type for each numeric
    type [TCount], each with its type name and its constructor; [int64_t]
    is the default of the template parameter. *)
Context {count_type : Type}.
Variable counter_type_of : count_type -> string.
Variable make_counter_of : count_type -> Z -> TMetric.
Variable int64_t : count_type.

(** [metrics_registry::counter<TCount>(name, initialValue, tags)] *)
Definition counter_as (TCount : count_type) (name : metric_path) (initialValue : Z)
    (tags : tag_collection) (s : metrics_registry) : ran addr metrics_registry :=
  get_tagged (counter_type_of TCount) name tags
             (fun _ => ret (make_counter_of TCount initialValue)) s.

(** An argument as a caller writes it: a value of a numeric type. *)
Record argument := {
  type_of : count_type;
  value_of : Z
}.

(** The call [counter(name, initialValue, tags)]. The parameter is declared
    [TCount&& initialValue] with [TCount] a parameter of the template, so
    [TCount] is deduced from the argument and the default is not used:
    [counter(name, 7)] is [counter<int>]. *)
Definition counter_call (name : metric_path) (initialValue : argument)
    (tags : tag_collection) (s : metrics_registry) : ran addr metrics_registry :=
  counter_as (type_of initialValue) name (value_of initialValue) tags s.

(** The call [counter(name, tags)], the overload without an initial value:
    [counter<TCount>(name, 0, tags)] with the default [TCount = int64_t]. *)
Definition counter_without (name : metric_path) (tags : tag_collection)
    (s : metrics_registry) : ran addr metrics_registry :=
  counter_as int64_t name 0 tags s.

(** ** Reading the calls and the locks of a visit of the registry *)

(** The containers the handler was called with for path [p]. *)
Definition called_for (p : metric_path) (calls : list (metric_path * registered_metric))
  : list registered_metric :=
  omap (fun call => if decide (call.1 = p) then Some call.2 else None) calls.


(** ** Reading the locks of a log *)

(** Whether the log holds at most one lock at any time: no lock is taken
    while [held] is held, a release gives up the lock that is held, and
    none is held at the end. *)
Fixpoint one_lock_at_a_time (held : option mutex) (tr : list event) : bool :=
  match tr with
  | [] => bool_decide (held = None)
  | acquire m :: tr' =>
      match held with
      | None => one_lock_at_a_time (Some m) tr'
      | Some _ => false
      end
  | release m :: tr' => bool_decide (held = Some m) && one_lock_at_a_time None tr'
  | build _ _ :: tr' | visit _ :: tr' | handler _ _ :: tr' => one_lock_at_a_time held tr'
  end.


(** * Properties of the container *)

Lemma child_found (tags : tag_collection) (metricbuilder : metric_builder)
    (this : registered_metric) (free : addr) n :
  metrics_ this !! tags = Some n ->
  child tags metricbuilder this free
  = Ran (ret (address n)) (this, free)
        [acquire registered_metric_lock_; release registered_metric_lock_].
Proof. intros Hn. unfold child. by rewrite Hn. Qed.

Lemma child_built (tags : tag_collection) (metricbuilder : metric_builder)
    (this : registered_metric) (free : addr) m :
  metrics_ this !! tags = None ->
  metricbuilder tt = ret m ->
  child tags metricbuilder this free
  = Ran (ret free)
        ({| type_ := type_ this;
            metrics_ := <[tags := {| address := free; metric := m |}]> (metrics_ this) |},
         S free)
        [acquire registered_metric_lock_; build tags (ret m);
         release registered_metric_lock_].
Proof. intros Hn Hb. unfold child. by rewrite Hn, Hb. Qed.

Lemma child_threw (tags : tag_collection) (metricbuilder : metric_builder)
    (this : registered_metric) (free : addr) e :
  metrics_ this !! tags = None ->
  metricbuilder tt = throw e ->
  child tags metricbuilder this free
  = Ran (throw e) (this, free)
        [acquire registered_metric_lock_; build tags (throw e);
         release registered_metric_lock_].
Proof. intros Hn Hb. unfold child. by rewrite Hn, Hb. Qed.

(** The three ways through [child]. *)
Lemma child_cases (tags : tag_collection) (metricbuilder : metric_builder)
    (this : registered_metric) (free : addr) :
  (exists n, metrics_ this !! tags = Some n)
  \/ (exists m, metrics_ this !! tags = None /\ metricbuilder tt = ret m)
  \/ (exists e, metrics_ this !! tags = None /\ metricbuilder tt = throw e).
Proof.
  destruct (metrics_ this !! tags) as [n|]; [left; eauto|right].
  destruct (metricbuilder tt) as [m|e]; [left|right]; eauto.
Qed.

(** An entry of the container stays, whatever [child] is asked. *)
Lemma child_keeps (tags : tag_collection) (metricbuilder : metric_builder)
    (this : registered_metric) (free : addr) t n :
  metrics_ this !! t = Some n ->
  metrics_ (st (child tags metricbuilder this free)).1 !! t = Some n.
Proof.
  intros Ht.
  destruct (child_cases tags metricbuilder this free)
    as [(n' & Hn)|[(m & Hn & Hb)|(e & Hn & Hb)]].
  - by rewrite (child_found _ _ _ _ _ Hn).
  - rewrite (child_built _ _ _ _ _ Hn Hb). simpl.
    rewrite lookup_insert_ne; [done|]. intros ->. congruence.
  - by rewrite (child_threw _ _ _ _ _ Hn Hb).
Qed.

Lemma child_type (tags : tag_collection) (metricbuilder : metric_builder)
    (this : registered_metric) (free : addr) :
  type_ (st (child tags metricbuilder this free)).1 = type_ this.
Proof.
  destruct (child_cases tags metricbuilder this free)
    as [(n' & Hn)|[(m & Hn & Hb)|(e & Hn & Hb)]].
  - by rewrite (child_found _ _ _ _ _ Hn).
  - by rewrite (child_built _ _ _ _ _ Hn Hb).
  - by rewrite (child_threw _ _ _ _ _ Hn Hb).
Qed.

Lemma builds_app tags tr1 tr2 :
  builds tags (tr1 ++ tr2) = builds tags tr1 ++ builds tags tr2.
Proof. unfold builds. apply omap_app. Qed.

Lemma built_app rs1 rs2 : built (rs1 ++ rs2) = built rs1 ++ built rs2.
Proof. unfold built. apply omap_app. Qed.

(** Once an instrument is there for [t], no call builds for [t] again. *)
Lemma child_calls_present calls :
  forall (this : registered_metric) (free : addr) (t : tag_collection) n,
  metrics_ this !! t = Some n ->
  builds t (child_calls calls this free) = [].
Proof.
  induction calls as [|[tags mb] calls IH]; intros this free t n Ht; [done|].
  simpl. rewrite builds_app.
  rewrite (IH _ _ t n) by (by apply child_keeps).
  rewrite app_nil_r.
  destruct (child_cases tags mb this free)
    as [(n' & Hn)|[(m & Hn & Hb)|(e & Hn & Hb)]].
  - by rewrite (child_found _ _ _ _ _ Hn).
  - rewrite (child_built _ _ _ _ _ Hn Hb). simpl.
    destruct (decide (tags = t)) as [->|]; [congruence|done].
  - rewrite (child_threw _ _ _ _ _ Hn Hb). simpl.
    destruct (decide (tags = t)) as [->|]; [congruence|done].
Qed.

(** A [build()] hands back an instrument for [t] at most once. *)
Lemma child_calls_built_once calls :
  forall (this : registered_metric) (free : addr) (t : tag_collection),
  length (built (builds t (child_calls calls this free))) <= 1.
Proof.
  induction calls as [|[tags mb] calls IH]; intros this free t; [simpl; lia|].
  simpl. rewrite builds_app, built_app, length_app.
  destruct (child_cases tags mb this free)
    as [(n' & Hn)|[(m & Hn & Hb)|(e & Hn & Hb)]].
  - rewrite (child_found _ _ _ _ _ Hn). simpl. apply IH.
  - rewrite (child_built _ _ _ _ _ Hn Hb). simpl.
    destruct (decide (tags = t)) as [->|]; simpl; [|apply IH].
    erewrite child_calls_present; [simpl; lia|].
    simpl. apply lookup_insert_eq.
  - rewrite (child_threw _ _ _ _ _ Hn Hb). simpl.
    destruct (decide (tags = t)) as [->|]; simpl; apply IH.
Qed.

Lemma merge_rest_foldl rest : forall result,
  merge_rest result rest
  = foldl merge result ((fun n => snapshot (metric n)) <$> rest.*2).
Proof.
  induction rest as [|[t n] rest IH]; intros result; [done|]. simpl. apply IH.
Qed.

(** Claim C7. A [find_or_create] ([child], with [tagged] in front of it) that
    fails because the builder raised leaves the container, its tag map
    included, and the free store exactly as they were. *)
Theorem child_failure_leaves_container (tags : tag_collection)
    (metricbuilder : metric_builder) (this : registered_metric) (free : addr) (e : exn) :
  res (child tags metricbuilder this free) = throw e ->
  st (child tags metricbuilder this free) = (this, free)
  /\ st (tagged tags metricbuilder this free) = (this, free)
  /\ metrics_ (st (child tags metricbuilder this free)).1 = metrics_ this.
Proof.
  intros Hres. unfold tagged.
  destruct (child_cases tags metricbuilder this free)
    as [(n' & Hn)|[(m & Hn & Hb)|(e' & Hn & Hb)]].
  - rewrite (child_found _ _ _ _ _ Hn) in Hres. discriminate.
  - rewrite (child_built _ _ _ _ _ Hn Hb) in Hres. discriminate.
  - by rewrite (child_threw _ _ _ _ _ Hn Hb).
Qed.

(** Claim C6, as amended. [child] returns the instrument that is there
    without calling the builder. When none is there it calls the builder
    once: the instrument the builder hands back is inserted at a fresh
    address and returned; when the builder raises, nothing is inserted. Over
    any run of calls a builder hands back an instrument at most once per tag
    set, and none is called for a tag set that has its instrument. (After a
    builder that raised, the next call for the tag set calls a builder
    again.) *)
Theorem child_finds_or_builds (this : registered_metric) (free : addr)
    (tags : tag_collection) :
  (forall metricbuilder n,
      metrics_ this !! tags = Some n ->
      child tags metricbuilder this free
      = Ran (ret (address n)) (this, free)
            [acquire registered_metric_lock_; release registered_metric_lock_])
  /\ (forall metricbuilder m,
      metrics_ this !! tags = None ->
      metricbuilder tt = ret m ->
      child tags metricbuilder this free
      = Ran (ret free)
            ({| type_ := type_ this;
                metrics_ := <[tags := {| address := free; metric := m |}]> (metrics_ this) |},
             S free)
            [acquire registered_metric_lock_; build tags (ret m);
             release registered_metric_lock_])
  /\ (forall metricbuilder e,
      metrics_ this !! tags = None ->
      metricbuilder tt = throw e ->
      child tags metricbuilder this free
      = Ran (throw e) (this, free)
            [acquire registered_metric_lock_; build tags (throw e);
             release registered_metric_lock_])
  /\ (forall calls, length (built (builds tags (child_calls calls this free))) <= 1)
  /\ (forall calls n,
      metrics_ this !! tags = Some n ->
      builds tags (child_calls calls this free) = []).
Proof.
  split; [|split; [|split; [|split]]].
  - intros mb n Hn. by apply child_found.
  - intros mb m Hn Hb. by apply child_built.
  - intros mb e Hn Hb. by apply child_threw.
  - intros calls. apply child_calls_built_once.
  - intros calls n Hn. by eapply child_calls_present.
Qed.

(** Claim C5. [aggregate] hands the visitor the snapshots of the instruments of
    the container folded by [merge], the first one as the start, in one
    call made after the lock is released; on an empty container the visitor
    is not called. *)
Theorem aggregate_folds_once (this : registered_metric) :
  visits (aggregate this)
  = match (map_to_list (metrics_ this)).*2 with
    | [] => []
    | n :: ns => [foldl merge (snapshot (metric n)) ((fun n => snapshot (metric n)) <$> ns)]
    end
  /\ (visits (aggregate this) = [] <-> metrics_ this = ∅)
  /\ (length (visits (aggregate this)) = if decide (metrics_ this = ∅) then 0 else 1)
  /\ callbacks_outside registered_metric_lock_ false (aggregate this) = true
  /\ exists tr, aggregate this = acquire registered_metric_lock_
                                 :: release registered_metric_lock_ :: tr.
Proof.
  unfold aggregate, aggregate_all.
  destruct (map_to_list (metrics_ this)) as [|[t n] rest] eqn:Hl.
  - apply map_to_list_empty_iff in Hl. rewrite Hl, decide_True by done.
    simpl. repeat split; eauto.
  - assert (metrics_ this <> ∅) as Hne.
    { intros He. rewrite He, map_to_list_empty in Hl. discriminate. }
    rewrite decide_False by done. simpl. rewrite merge_rest_foldl.
    repeat split; eauto; intros; try done.
Qed.

(** * Properties of the registry *)

Lemma get_absent (mtype : string) (path : metric_path) (s : metrics_registry) :
  repo_ s !! path = None ->
  get mtype path s
  = Ran (ret {| type_ := mtype; metrics_ := ∅ |})
        {| repo_ := <[path := {| type_ := mtype; metrics_ := ∅ |}]> (repo_ s);
           free_ := free_ s |}
        [acquire repository_lock_; release repository_lock_].
Proof.
  intros Hp. unfold get, get_or_add. rewrite Hp. simpl.
  by rewrite decide_True.
Qed.

Lemma get_match (mtype : string) (path : metric_path) (s : metrics_registry) c :
  repo_ s !! path = Some c ->
  type_ c = mtype ->
  get mtype path s = Ran (ret c) s [acquire repository_lock_; release repository_lock_].
Proof.
  intros Hp Ht. unfold get, get_or_add. rewrite Hp. simpl.
  by rewrite decide_True.
Qed.

Lemma get_mismatch (mtype : string) (path : metric_path) (s : metrics_registry) c :
  repo_ s !! path = Some c ->
  type_ c <> mtype ->
  get mtype path s
  = Ran (throw (type_mismatch {| existing_ := type_ c; desired_ := mtype |})) s
        [acquire repository_lock_; release repository_lock_].
Proof.
  intros Hp Ht. unfold get, get_or_add. rewrite Hp. simpl.
  by rewrite decide_False.
Qed.

Lemma get_tagged_mismatch (mtype : string) (path : metric_path) (tags : tag_collection)
    (ctor : metric_builder) (s : metrics_registry) c :
  repo_ s !! path = Some c ->
  type_ c <> mtype ->
  get_tagged mtype path tags ctor s
  = Ran (throw (type_mismatch {| existing_ := type_ c; desired_ := mtype |})) s
        [acquire repository_lock_; release repository_lock_].
Proof.
  intros Hp Ht. unfold get_tagged. by rewrite (get_mismatch _ _ _ _ Hp Ht).
Qed.

Lemma get_tagged_match (mtype : string) (path : metric_path) (tags : tag_collection)
    (ctor : metric_builder) (s : metrics_registry) c :
  repo_ s !! path = Some c ->
  type_ c = mtype ->
  get_tagged mtype path tags ctor s
  = let k := child tags ctor c (free_ s) in
    Ran (res k) {| repo_ := <[path := (st k).1]> (repo_ s); free_ := (st k).2 |}
        ([acquire repository_lock_; release repository_lock_] ++ log k).
Proof.
  intros Hp Ht. unfold get_tagged. by rewrite (get_match _ _ _ _ Hp Ht).
Qed.

Lemma get_tagged_absent (mtype : string) (path : metric_path) (tags : tag_collection)
    (ctor : metric_builder) (s : metrics_registry) :
  repo_ s !! path = None ->
  get_tagged mtype path tags ctor s
  = let k := child tags ctor {| type_ := mtype; metrics_ := ∅ |} (free_ s) in
    Ran (res k)
        {| repo_ := <[path := (st k).1]>
                      (<[path := {| type_ := mtype; metrics_ := ∅ |}]> (repo_ s));
           free_ := (st k).2 |}
        ([acquire repository_lock_; release repository_lock_] ++ log k).
Proof.
  intros Hp. unfold get_tagged. by rewrite (get_absent _ _ _ Hp).
Qed.

Lemma registry_eta (s : metrics_registry) c (path : metric_path) :
  repo_ s !! path = Some c ->
  {| repo_ := <[path := c]> (repo_ s); free_ := free_ s |} = s.
Proof. intros Hp. destruct s as [repo free]. simpl in *. by rewrite insert_id. Qed.

Lemma get_tagged_registered (mtype : string) (path : metric_path) (tags : tag_collection)
    (ctor : metric_builder) (s : metrics_registry) (r : addr) :
  registered path mtype tags r s ->
  get_tagged mtype path tags ctor s
  = Ran (ret r) s
        [acquire repository_lock_; release repository_lock_;
         acquire registered_metric_lock_; release registered_metric_lock_].
Proof.
  intros (c & n & Hp & Ht & Hn & Hr).
  rewrite (get_tagged_match _ _ _ _ _ _ Hp Ht), (child_found _ _ _ _ _ Hn). simpl.
  by rewrite registry_eta, Hr.
Qed.

Lemma get_tagged_ret_registered (mtype : string) (path : metric_path)
    (tags : tag_collection) (ctor : metric_builder) (s : metrics_registry) (r : addr) :
  res (get_tagged mtype path tags ctor s) = ret r ->
  registered path mtype tags r (st (get_tagged mtype path tags ctor s)).
Proof.
  destruct (repo_ s !! path) as [c|] eqn:Hp.
  - destruct (decide (type_ c = mtype)) as [Ht|Ht].
    + rewrite (get_tagged_match _ _ _ _ _ _ Hp Ht).
      destruct (child_cases tags ctor c (free_ s))
        as [(n & Hn)|[(m & Hn & Hb)|(e & Hn & Hb)]].
      * rewrite (child_found _ _ _ _ _ Hn). simpl. intros [= <-].
        exists c, n. simpl. by rewrite lookup_insert_eq.
      * rewrite (child_built _ _ _ _ _ Hn Hb). simpl. intros [= <-].
        eexists _, _. simpl. rewrite lookup_insert_eq. split; [done|]. simpl.
        by rewrite lookup_insert_eq.
      * rewrite (child_threw _ _ _ _ _ Hn Hb). discriminate.
    + rewrite (get_tagged_mismatch _ _ _ _ _ _ Hp Ht). discriminate.
  - rewrite (get_tagged_absent _ _ _ _ _ Hp).
    destruct (child_cases tags ctor {| type_ := mtype; metrics_ := ∅ |} (free_ s))
      as [(n & Hn)|[(m & Hn & Hb)|(e & Hn & Hb)]].
    + simpl in Hn. by rewrite lookup_empty in Hn.
    + rewrite (child_built _ _ _ _ _ Hn Hb). simpl. intros [= <-].
      eexists _, _. simpl. rewrite lookup_insert_eq. split; [done|]. simpl.
      by rewrite lookup_insert_eq.
    + rewrite (child_threw _ _ _ _ _ Hn Hb). discriminate.
Qed.

(** A request leaves every entry where it is. *)
Lemma serve_registered (rq : request) (path : metric_path) (mtype : string)
    (tags : tag_collection) (r : addr) (s : metrics_registry) :
  registered path mtype tags r s ->
  registered path mtype tags r (serve s rq).
Proof.
  intros (c & n & Hp & Ht & Hn & Hr).
  destruct rq as [mtype' path' tags' ctor|a f]; simpl.
  - destruct (repo_ s !! path') as [c'|] eqn:Hp'.
    + destruct (decide (type_ c' = mtype')) as [Ht'|Ht'].
      * rewrite (get_tagged_match _ _ _ _ _ _ Hp' Ht'). simpl.
        destruct (decide (path' = path)) as [->|Hne].
        -- assert (c' = c) as -> by congruence.
           eexists _, n. simpl. rewrite lookup_insert_eq. split; [done|].
           rewrite child_type. split; [done|]. split; [|done].
           by apply child_keeps.
        -- exists c, n. simpl. by rewrite lookup_insert_ne.
      * rewrite (get_tagged_mismatch _ _ _ _ _ _ Hp' Ht'). simpl.
        by exists c, n.
    + rewrite (get_tagged_absent _ _ _ _ _ Hp'). simpl.
      assert (path' <> path) as Hne by (intros ->; congruence).
      exists c, n. simpl. by rewrite !lookup_insert_ne.
  - exists {| type_ := type_ c; metrics_ := use_node a f <$> metrics_ c |}, (use_node a f n).
    unfold use. simpl. rewrite !lookup_fmap, Hp, Hn. simpl.
    repeat split; [done|]. unfold use_node. by destruct (decide (address n = a)).
Qed.

Lemma serve_all_registered (rqs : list request) : forall (s : metrics_registry)
    (path : metric_path) (mtype : string) (tags : tag_collection) (r : addr),
  registered path mtype tags r s ->
  registered path mtype tags r (serve_all rqs s).
Proof.
  unfold serve_all.
  induction rqs as [|rq rqs IH]; intros s path mtype tags r Hr; [done|].
  simpl. apply IH. by apply serve_registered.
Qed.

(** A request whose constructor does not itself raise a type mismatch raises
    one only from the check of [get], with the registry as it was. *)
Lemma get_tagged_mismatch_inv (mtype : string) (path : metric_path)
    (tags : tag_collection) (ctor : metric_builder) (s : metrics_registry)
    (e : metric_type_mismatch) :
  (forall e', ctor tt <> throw (type_mismatch e')) ->
  res (get_tagged mtype path tags ctor s) = throw (type_mismatch e) ->
  st (get_tagged mtype path tags ctor s) = s
  /\ exists c, repo_ s !! path = Some c
       /\ existing_metric_type e = type_ c /\ desired_metric_type e = mtype
       /\ type_ c <> mtype
       /\ forall builder, get_or_add path builder s
            = Ran (ret c) s [acquire repository_lock_; release repository_lock_].
Proof.
  intros Hctor.
  destruct (repo_ s !! path) as [c|] eqn:Hp.
  - destruct (decide (type_ c = mtype)) as [Ht|Ht].
    + rewrite (get_tagged_match _ _ _ _ _ _ Hp Ht).
      destruct (child_cases tags ctor c (free_ s))
        as [(n & Hn)|[(m & Hn & Hb)|(e' & Hn & Hb)]].
      * rewrite (child_found _ _ _ _ _ Hn). discriminate.
      * rewrite (child_built _ _ _ _ _ Hn Hb). discriminate.
      * rewrite (child_threw _ _ _ _ _ Hn Hb). simpl. intros [= ->].
        by destruct (Hctor e).
    + rewrite (get_tagged_mismatch _ _ _ _ _ _ Hp Ht). simpl. intros [= <-].
      split; [done|]. exists c. repeat split; try done.
      intros builder. unfold get_or_add. by rewrite Hp.
  - rewrite (get_tagged_absent _ _ _ _ _ Hp).
    destruct (child_cases tags ctor {| type_ := mtype; metrics_ := ∅ |} (free_ s))
      as [(n & Hn)|[(m & Hn & Hb)|(e' & Hn & Hb)]].
    + simpl in Hn. by rewrite lookup_empty in Hn.
    + rewrite (child_built _ _ _ _ _ Hn Hb). discriminate.
    + rewrite (child_threw _ _ _ _ _ Hn Hb). simpl. intros [= ->].
      by destruct (Hctor e).
Qed.

Lemma ewma_ctor_no_mismatch (window interval : Z) e :
  ewma_ctor window interval <> throw (type_mismatch e).
Proof. unfold ewma_ctor. by case_decide. Qed.

(** Claim C1. Where the container registered at [path] has a type name other
    than the requested one, every request for an instrument at [path],
    whatever the tags and the constructor arguments, throws
    [metric_type_mismatch] with the container's type name and the requested
    one, to the caller, and does nothing else; so does [ewma] at a path
    where [counter] returned, whatever the tags. *)
Theorem mismatch_is_thrown :
  (forall (s : metrics_registry) (path : metric_path) c (mtype : string)
          (tags : tag_collection) (ctor : metric_builder),
      repo_ s !! path = Some c ->
      type_ c <> mtype ->
      get_tagged mtype path tags ctor s
      = Ran (throw (type_mismatch {| existing_ := type_ c; desired_ := mtype |})) s
            [acquire repository_lock_; release repository_lock_])
  /\ (forall (s : metrics_registry) (name : metric_path) (v : Z) (tags : tag_collection)
             (r : addr) (window interval : Z) (tags' : tag_collection),
      counter_type <> ewma_type ->
      res (counter name v tags s) = ret r ->
      res (ewma name window interval tags' (st (counter name v tags s)))
      = throw (type_mismatch {| existing_ := counter_type; desired_ := ewma_type |})).
Proof.
  split.
  - intros s path c mtype tags ctor Hp Ht. by apply get_tagged_mismatch.
  - intros s name v tags r window interval tags' Hne Hres.
    apply get_tagged_ret_registered in Hres as (c & n & Hp & Ht & _).
    unfold ewma. fold (counter name v tags s) in Hp.
    rewrite (get_tagged_mismatch _ _ _ _ _ c Hp) by congruence.
    simpl. by rewrite Ht.
Qed.

(** Claim C10. A [counter] or [ewma] request that throws [metric_type_mismatch]
    leaves the registry as it was: the container at the path is the one
    [get_or_add] finds and returns without replacing it, none is created,
    and it keeps its type name, which is the one the exception carries, and
    its contents. *)
Theorem mismatch_leaves_registry (s : metrics_registry) (name : metric_path)
    (tags : tag_collection) (e : metric_type_mismatch) :
  (forall v, res (counter name v tags s) = throw (type_mismatch e) ->
     st (counter name v tags s) = s
     /\ exists c, repo_ s !! name = Some c
          /\ existing_metric_type e = type_ c /\ desired_metric_type e = counter_type
          /\ type_ c <> counter_type
          /\ forall builder, get_or_add name builder s
               = Ran (ret c) s [acquire repository_lock_; release repository_lock_])
  /\ (forall window interval,
     res (ewma name window interval tags s) = throw (type_mismatch e) ->
     st (ewma name window interval tags s) = s
     /\ exists c, repo_ s !! name = Some c
          /\ existing_metric_type e = type_ c /\ desired_metric_type e = ewma_type
          /\ type_ c <> ewma_type
          /\ forall builder, get_or_add name builder s
               = Ran (ret c) s [acquire repository_lock_; release repository_lock_]).
Proof.
  split.
  - intros v. apply get_tagged_mismatch_inv. done.
  - intros window interval. apply get_tagged_mismatch_inv.
    intros e'. apply ewma_ctor_no_mismatch.
Qed.

(** ** References name instruments *)

Lemma well_allocated_empty : well_allocated empty_registry.
Proof.
  split; intros p c t n; simpl; rewrite lookup_empty; discriminate.
Qed.

(** What a request finds in the registry afterwards was there before, at
    its address, or is the node the request allocated, at the old end of
    the free store. *)
Lemma get_tagged_entries (mtype : string) (path : metric_path) (tags : tag_collection)
    (ctor : metric_builder) (s : metrics_registry) p c t n :
  repo_ (st (get_tagged mtype path tags ctor s)) !! p = Some c ->
  metrics_ c !! t = Some n ->
  free_ s <= free_ (st (get_tagged mtype path tags ctor s))
  /\ ((exists c0 n0, repo_ s !! p = Some c0 /\ metrics_ c0 !! t = Some n0
                     /\ address n0 = address n)
      \/ (p = path /\ t = tags /\ address n = free_ s
          /\ free_ (st (get_tagged mtype path tags ctor s)) = S (free_ s))).
Proof.
  assert (forall this free,
             free = free_ s ->
             forall c, (st (child tags ctor this free)).1 = c ->
             metrics_ c !! t = Some n ->
             free_ s <= (st (child tags ctor this free)).2
             /\ ((exists n0, metrics_ this !! t = Some n0 /\ address n0 = address n)
                 \/ (t = tags /\ address n = free_ s
                     /\ (st (child tags ctor this free)).2 = S (free_ s))))
    as Hchild.
  { intros this free -> c' <-.
    destruct (child_cases tags ctor this (free_ s))
      as [(n' & Hn)|[(m & Hn & Hb)|(e & Hn & Hb)]].
    - rewrite (child_found _ _ _ _ _ Hn). simpl. intros Ht. split; [lia|]. left. eauto.
    - rewrite (child_built _ _ _ _ _ Hn Hb). simpl.
      destruct (decide (tags = t)) as [->|Hne].
      + rewrite lookup_insert_eq. intros [= <-]. split; [lia|]. by right.
      + rewrite lookup_insert_ne by done. intros Ht. split; [lia|]. left. eauto.
    - rewrite (child_threw _ _ _ _ _ Hn Hb). simpl. intros Ht. split; [lia|]. left. eauto. }
  destruct (repo_ s !! path) as [c0|] eqn:Hp.
  - destruct (decide (type_ c0 = mtype)) as [Hty|Hty].
    + rewrite (get_tagged_match _ _ _ _ _ _ Hp Hty). simpl.
      destruct (decide (path = p)) as [<-|Hne].
      * rewrite lookup_insert_eq. intros [= <-] Ht.
        destruct (Hchild c0 (free_ s) eq_refl _ eq_refl Ht)
          as [Hle [(n0 & Hn0 & Ha)|(-> & Ha & Hf)]].
        -- split; [done|]. left. eauto.
        -- split; [done|]. by right.
      * rewrite lookup_insert_ne by done. intros Hc Ht. split.
        -- destruct (child_cases tags ctor c0 (free_ s))
             as [(n' & Hn)|[(m & Hn & Hb)|(e & Hn & Hb)]].
           ++ by rewrite (child_found _ _ _ _ _ Hn).
           ++ rewrite (child_built _ _ _ _ _ Hn Hb). simpl. lia.
           ++ by rewrite (child_threw _ _ _ _ _ Hn Hb).
        -- left. eauto.
    + rewrite (get_tagged_mismatch _ _ _ _ _ _ Hp Hty). simpl.
      intros Hc Ht. split; [lia|]. left. eauto.
  - rewrite (get_tagged_absent _ _ _ _ _ Hp). simpl.
    destruct (decide (path = p)) as [<-|Hne].
    + rewrite lookup_insert_eq. intros [= <-] Ht.
      destruct (Hchild _ (free_ s) eq_refl _ eq_refl Ht)
        as [Hle [(n0 & Hn0 & Ha)|(-> & Ha & Hf)]].
      * simpl in Hn0. by rewrite lookup_empty in Hn0.
      * split; [done|]. by right.
    + rewrite !lookup_insert_ne by done. intros Hc Ht. split.
      * destruct (child_cases tags ctor {| type_ := mtype; metrics_ := ∅ |} (free_ s))
          as [(n' & Hn)|[(m & Hn & Hb)|(e & Hn & Hb)]].
        -- by rewrite (child_found _ _ _ _ _ Hn).
        -- rewrite (child_built _ _ _ _ _ Hn Hb). simpl. lia.
        -- by rewrite (child_threw _ _ _ _ _ Hn Hb).
      * left. eauto.
Qed.

Lemma serve_well_allocated (rq : request) (s : metrics_registry) :
  well_allocated s -> well_allocated (serve s rq).
Proof.
  intros [Hbelow Hinj]. destruct rq as [mtype path tags ctor|a f]; simpl.
  - split.
    + intros p c t n Hc Ht.
      destruct (get_tagged_entries _ _ _ _ _ _ _ _ _ Hc Ht)
        as [Hle [(c0 & n0 & Hc0 & Hn0 & Ha)|(_ & _ & Ha & Hf)]].
      * specialize (Hbelow _ _ _ _ Hc0 Hn0). lia.
      * lia.
    + intros p c t n p' c' t' n' Hc Ht Hc' Ht' Heq.
      destruct (get_tagged_entries _ _ _ _ _ _ _ _ _ Hc Ht)
        as [_ [(c0 & n0 & Hc0 & Hn0 & Ha)|(-> & -> & Ha & _)]];
      destruct (get_tagged_entries _ _ _ _ _ _ _ _ _ Hc' Ht')
        as [_ [(c0' & n0' & Hc0' & Hn0' & Ha')|(-> & -> & Ha' & _)]].
      * eapply Hinj; eauto. congruence.
      * specialize (Hbelow _ _ _ _ Hc0 Hn0). lia.
      * specialize (Hbelow _ _ _ _ Hc0' Hn0'). lia.
      * done.
  - assert (forall p c t n,
               repo_ (use a f s) !! p = Some c -> metrics_ c !! t = Some n ->
               exists c0 n0, repo_ s !! p = Some c0 /\ metrics_ c0 !! t = Some n0
                             /\ address n0 = address n) as Hold.
    { intros p c t n. unfold use. simpl. rewrite lookup_fmap.
      destruct (repo_ s !! p) as [c0|] eqn:Hc0; [|done]. simpl. intros [= <-]. simpl.
      rewrite lookup_fmap. destruct (metrics_ c0 !! t) as [n0|] eqn:Hn0; [|done].
      simpl. intros [= <-]. exists c0, n0. repeat split; [done..|].
      unfold use_node. by case_decide. }
    split.
    + intros p c t n Hc Ht. destruct (Hold _ _ _ _ Hc Ht) as (c0 & n0 & Hc0 & Hn0 & <-).
      by eapply Hbelow.
    + intros p c t n p' c' t' n' Hc Ht Hc' Ht' Heq.
      destruct (Hold _ _ _ _ Hc Ht) as (c0 & n0 & Hc0 & Hn0 & Ha).
      destruct (Hold _ _ _ _ Hc' Ht') as (c0' & n0' & Hc0' & Hn0' & Ha').
      eapply Hinj; eauto. congruence.
Qed.

Lemma serve_all_well_allocated (rqs : list request) : forall s : metrics_registry,
  well_allocated s -> well_allocated (serve_all rqs s).
Proof.
  unfold serve_all. induction rqs as [|rq rqs IH]; intros s Hs; [done|].
  simpl. apply IH. by apply serve_well_allocated.
Qed.

(** Extra X14. In a registry built by requests, a reference names one
    instrument: two requests that return the same reference asked for the
    same path and the same tags. *)
Lemma reference_names_instrument (rqs : list request) (mtype mtype' : string)
    (path path' : metric_path) (tags tags' : tag_collection) (ctor ctor' : metric_builder)
    (r : addr) :
  let s := serve_all rqs empty_registry in
  res (get_tagged mtype path tags ctor s) = ret r ->
  res (get_tagged mtype' path' tags' ctor' (st (get_tagged mtype path tags ctor s))) = ret r ->
  path = path' /\ tags = tags'.
Proof.
  intros s Hr Hr'.
  pose proof (serve_all_well_allocated rqs _ well_allocated_empty) as Hs. fold s in Hs.
  apply (serve_well_allocated (asks mtype path tags ctor)) in Hs. simpl in Hs.
  apply (serve_well_allocated (asks mtype' path' tags' ctor')) in Hs. simpl in Hs.
  apply get_tagged_ret_registered in Hr as Hreg.
  apply (serve_registered (asks mtype' path' tags' ctor')) in Hreg. simpl in Hreg.
  apply get_tagged_ret_registered in Hr' as Hreg'.
  destruct Hreg as (c & n & Hc & _ & Hn & Ha).
  destruct Hreg' as (c' & n' & Hc' & _ & Hn' & Ha').
  destruct Hs as [_ Hinj]. eapply Hinj; eauto. congruence.
Qed.

(** What a request that returns has done: the reference is the address of
    the node held for the tags afterwards, which is the node that was
    there, the registry being left as it was, or a node made of what the
    constructor returned, at the old end of the free store. *)
Lemma get_tagged_returns (mtype : string) (path : metric_path) (tags : tag_collection)
    (ctor : metric_builder) (s : metrics_registry) (r : addr) :
  res (get_tagged mtype path tags ctor s) = ret r ->
  exists n,
    instrument_at (st (get_tagged mtype path tags ctor s)) path tags = Some n
    /\ address n = r
    /\ match instrument_at s path tags with
       | Some n0 => n = n0 /\ st (get_tagged mtype path tags ctor s) = s
       | None =>
           ctor tt = ret (metric n) /\ r = free_ s
           /\ free_ (st (get_tagged mtype path tags ctor s)) = S (free_ s)
       end.
Proof.
  unfold instrument_at.
  destruct (repo_ s !! path) as [c|] eqn:Hp.
  - destruct (decide (type_ c = mtype)) as [Ht|Ht].
    + rewrite (get_tagged_match _ _ _ _ _ _ Hp Ht).
      destruct (child_cases tags ctor c (free_ s))
        as [(n & Hn)|[(m & Hn & Hb)|(e & Hn & Hb)]].
      * rewrite (child_found _ _ _ _ _ Hn). simpl. intros [= <-].
        exists n. rewrite lookup_insert_eq, Hn.
        repeat split; try done. by apply registry_eta.
      * rewrite (child_built _ _ _ _ _ Hn Hb). simpl. intros [= <-].
        eexists. rewrite lookup_insert_eq. simpl. rewrite lookup_insert_eq, Hn.
        by repeat split.
      * rewrite (child_threw _ _ _ _ _ Hn Hb). discriminate.
    + rewrite (get_tagged_mismatch _ _ _ _ _ _ Hp Ht). discriminate.
  - rewrite (get_tagged_absent _ _ _ _ _ Hp).
    destruct (child_cases tags ctor {| type_ := mtype; metrics_ := ∅ |} (free_ s))
      as [(n & Hn)|[(m & Hn & Hb)|(e & Hn & Hb)]].
    + simpl in Hn. by rewrite lookup_empty in Hn.
    + rewrite (child_built _ _ _ _ _ Hn Hb). simpl. intros [= <-].
      eexists. rewrite lookup_insert_eq. simpl. rewrite lookup_insert_eq.
      by repeat split.
    + rewrite (child_threw _ _ _ _ _ Hn Hb). discriminate.
Qed.

(** Claim C3, as amended. Once a [counter] call has returned a reference for a
    path and a tag set, the reference is the address of the instrument held
    for them: the one that was there, or a counter built with the initial
    value. After any requests and any work done through references, the
    instrument is still held there, and a later [counter] call for the path
    and the tags, whatever its initial value, returns that reference,
    builds nothing and leaves the registry as it finds it when it asks for
    a counter of the same type name; a call for a counter of another
    numeric type, which an initial value of another type makes it, throws
    [metric_type_mismatch] and leaves the registry as it finds it. *)
Theorem counter_identity (s : metrics_registry) (TCount : count_type)
    (name : metric_path) (v : Z) (tags : tag_collection) (r : addr) :
  res (counter_as TCount name v tags s) = ret r ->
  (exists n,
      instrument_at (st (counter_as TCount name v tags s)) name tags = Some n
      /\ address n = r
      /\ match instrument_at s name tags with
         | Some n0 => n = n0 /\ st (counter_as TCount name v tags s) = s
         | None => metric n = make_counter_of TCount v /\ r = free_ s
         end)
  /\ forall (rqs : list request) (TCount' : count_type) (v' : Z),
       (exists n',
           instrument_at (serve_all rqs (st (counter_as TCount name v tags s))) name tags
           = Some n'
           /\ address n' = r)
       /\ counter_as TCount' name v' tags
            (serve_all rqs (st (counter_as TCount name v tags s)))
          = if decide (counter_type_of TCount' = counter_type_of TCount)
            then Ran (ret r) (serve_all rqs (st (counter_as TCount name v tags s)))
                     [acquire repository_lock_; release repository_lock_;
                      acquire registered_metric_lock_; release registered_metric_lock_]
            else Ran (throw (type_mismatch {| existing_ := counter_type_of TCount;
                                              desired_ := counter_type_of TCount' |}))
                     (serve_all rqs (st (counter_as TCount name v tags s)))
                     [acquire repository_lock_; release repository_lock_].
Proof.
  intros Hres. split.
  - destruct (get_tagged_returns _ _ _ _ _ _ Hres) as (n & Hn & Hr & Hwas).
    exists n. split; [done|]. split; [done|].
    fold (counter_as TCount name v tags s) in Hwas.
    destruct (instrument_at s name tags) as [n0|]; [done|].
    destruct Hwas as ([= Hm] & Hfree & _). by split.
  - intros rqs TCount' v'.
    apply get_tagged_ret_registered in Hres.
    apply (serve_all_registered rqs) in Hres.
    fold (counter_as TCount name v tags s) in Hres.
    pose proof Hres as (c & n & Hp & Ht & Hn & Hr). split.
    + exists n. unfold instrument_at. by rewrite Hp.
    + unfold counter_as at 1. case_decide as Hty.
      * apply get_tagged_registered. exists c, n. by rewrite Hty.
      * rewrite (get_tagged_mismatch _ _ _ _ _ c Hp) by congruence. by rewrite Ht.
Qed.

(** Claim C8, as amended. Constructing an EWMA raises [invalid_parameter]
    exactly when W >= I > 0 fails. A registry request with such parameters
    raises it when it comes to construct: at a path with no container, or
    in an EWMA container with no instrument for the tags. Where the
    instrument exists the parameters are ignored and it is returned; where
    the container has another type name the request raises
    [metric_type_mismatch]. *)
Theorem ewma_rejects_bad_parameters (window interval : Z) :
  (ewma_ctor window interval = throw invalid_parameter
   <-> ~ (0 < interval <= window)%Z)
  /\ (~ (0 < interval <= window)%Z ->
      forall (s : metrics_registry) (name : metric_path) (tags : tag_collection),
        res (ewma name window interval tags s)
        = match repo_ s !! name with
          | None => throw invalid_parameter
          | Some c =>
              if decide (type_ c = ewma_type) then
                match metrics_ c !! tags with
                | Some n => ret (address n)
                | None => throw invalid_parameter
                end
              else throw (type_mismatch {| existing_ := type_ c; desired_ := ewma_type |})
          end).
Proof.
  split.
  - unfold ewma_ctor. case_decide; split; intros; done.
  - intros Hbad s name tags. unfold ewma.
    assert (ewma_ctor window interval = throw invalid_parameter) as Hc.
    { unfold ewma_ctor. by rewrite decide_False. }
    destruct (repo_ s !! name) as [c|] eqn:Hp.
    + destruct (decide (type_ c = ewma_type)) as [Ht|Ht].
      * rewrite (get_tagged_match _ _ _ _ _ _ Hp Ht). simpl.
        destruct (metrics_ c !! tags) as [n|] eqn:Hn.
        -- by rewrite (child_found _ _ _ _ _ Hn).
        -- by rewrite (child_threw _ _ _ _ _ Hn Hc).
      * by rewrite (get_tagged_mismatch _ _ _ _ _ _ Hp Ht).
    + rewrite (get_tagged_absent _ _ _ _ _ Hp). simpl.
      by rewrite (child_threw _ _ _ _ invalid_parameter).
Qed.

(** * Properties of a visit of the registry *)

Lemma repo_visit_loop_returns (fn : registered_handler)
    (entries : list (metric_path * registered_metric)) (u : unit) :
  (repo_visit_loop fn entries).1.1 = ret u ->
  (repo_visit_loop fn entries).1.2 = entries.
Proof.
  induction entries as [|[p c] entries IH]; [done|]. simpl.
  destruct (fn p c).1 as [u'|e]; simpl; [|done].
  intros Hret. by rewrite (IH Hret).
Qed.



(** Over pairs with distinct paths, the handler is called for [p] with the
    one container paired with it. *)
Lemma called_for_pairs (l : list (metric_path * registered_metric)) (p : metric_path) :
  NoDup l.*1 ->
  called_for p l
  = match (list_to_map l : gmap metric_path registered_metric) !! p with
    | Some c => [c]
    | None => []
    end.
Proof.
  induction l as [|[q c] l IH]; intros Hnd; [done|].
  rewrite fmap_cons in Hnd. apply NoDup_cons in Hnd as [Hq Hnd].
  specialize (IH Hnd). unfold called_for in *. csimpl.
  destruct (decide (q = p)) as [->|Hne].
  - rewrite lookup_insert_eq, IH.
    by rewrite (not_elem_of_list_to_map_1 _ _ Hq).
  - by rewrite lookup_insert_ne.
Qed.





(** * More of the container: visiting *)

Lemma visit_loop_returns (handler : snapshot_handler)
    (entries : list (tag_collection * node)) :
  Forall (fun pair => forall e, handler pair.1 (snapshot (metric pair.2)) <> throw e)
         entries ->
  visit_loop handler entries
  = (ret tt, (fun pair => (pair.1, snapshot (metric pair.2))) <$> entries).
Proof.
  induction entries as [|[t n] entries IH]; intros Hok; [done|].
  apply Forall_cons in Hok as [Hhd Hok]. simpl in *.
  destruct (handler t (snapshot (metric n))) as [u|e]; [|by destruct (Hhd e)].
  by rewrite (IH Hok).
Qed.

Lemma visit_loop_throws (handler : snapshot_handler)
    (entries : list (tag_collection * node)) (e : exn) :
  (visit_loop handler entries).1 = throw e ->
  exists before t n behind,
    entries = before ++ (t, n) :: behind
    /\ Forall (fun pair => exists u, handler pair.1 (snapshot (metric pair.2)) = ret u)
              before
    /\ handler t (snapshot (metric n)) = throw e
    /\ (visit_loop handler entries).2
       = ((fun pair => (pair.1, snapshot (metric pair.2))) <$> before)
         ++ [(t, snapshot (metric n))].
Proof.
  induction entries as [|[t n] entries IH]; [done|]. simpl.
  destruct (handler t (snapshot (metric n))) as [u|e'] eqn:Hh; simpl.
  - intros (before & t' & n' & behind & -> & Hok & Hthrow & Hseen)%IH.
    exists ((t, n) :: before), t', n', behind. split; [done|]. split.
    + constructor; [simpl; eauto|done].
    + split; [done|]. simpl. by rewrite Hseen.
  - intros [= ->]. exists [], t, n, entries. by repeat split.
Qed.

Lemma callbacks_inside_visits (m : mutex) (l : list (tag_collection * TSnapshot)) tr :
  callbacks_inside m true (map (fun call => visit call.2) l ++ tr)
  = callbacks_inside m true tr.
Proof. induction l as [|c l IH]; [done|]. simpl. apply IH. Qed.

(** Over pairs with distinct tags, the handler sees for [t] the one snapshot
    of the instrument paired with [t]. *)
Lemma seen_for_pairs (l : list (tag_collection * node)) (t : tag_collection) :
  NoDup l.*1 ->
  seen_for t ((fun pair => (pair.1, snapshot (metric pair.2))) <$> l)
  = match (list_to_map l : gmap tag_collection node) !! t with
    | Some n => [snapshot (metric n)]
    | None => []
    end.
Proof.
  induction l as [|[q n] l IH]; intros Hnd; [done|].
  rewrite fmap_cons in Hnd. apply NoDup_cons in Hnd as [Hq Hnd].
  specialize (IH Hnd). unfold seen_for in *. csimpl.
  destruct (decide (q = t)) as [->|Hne].
  - rewrite lookup_insert_eq, IH.
    by rewrite (not_elem_of_list_to_map_1 _ _ Hq).
  - by rewrite lookup_insert_ne.
Qed.

(** Extra X1. With a handler that does not throw, [visit] calls it once for
    every tag set of the container, with the snapshot of the instrument of
    that tag set, and for nothing else; all the calls are made while the
    lock of the container is held, and the lock is released at the end. *)
Theorem visit_each_sees_all (handler : snapshot_handler) (this : registered_metric) :
  (forall t sn e, handler t sn <> throw e) ->
  ended (visit_tagged handler this) = ret tt
  /\ seen (visit_tagged handler this) = snapshots this
  /\ (forall t : tag_collection,
        seen_for t (seen (visit_tagged handler this))
        = match metrics_ this !! t with
          | Some n => [snapshot (metric n)]
          | None => []
          end)
  /\ length (seen (visit_tagged handler this)) = size (metrics_ this)
  /\ callbacks_inside registered_metric_lock_ false (steps (visit_tagged handler this))
     = true
  /\ last (steps (visit_tagged handler this)) = Some (release registered_metric_lock_).
Proof.
  intros Hok. unfold visit_tagged, visit_each, snapshots.
  rewrite visit_loop_returns by (apply Forall_forall; intros; apply Hok). simpl.
  split; [done|]. split; [done|]. split; [|split; [|split]].
  - intros t. rewrite seen_for_pairs by apply NoDup_fst_map_to_list.
    by rewrite list_to_map_to_list.
  - by rewrite length_fmap, length_map_to_list.
  - by rewrite callbacks_inside_visits.
  - by rewrite app_comm_cons, last_snoc.
Qed.

(** Extra X2. When [visit] ends with an exception, the handler threw it at
    one node: the nodes before it in the iteration order were visited and
    returned, the nodes behind it are not visited, and the lock of the
    container, held during every call, is released all the same. *)
Theorem visit_each_stops_at_throw (handler : snapshot_handler)
    (this : registered_metric) (e : exn) :
  ended (visit_tagged handler this) = throw e ->
  exists before t n behind,
    map_to_list (metrics_ this) = before ++ (t, n) :: behind
    /\ Forall (fun pair => exists u, handler pair.1 (snapshot (metric pair.2)) = ret u)
              before
    /\ handler t (snapshot (metric n)) = throw e
    /\ seen (visit_tagged handler this)
       = ((fun pair => (pair.1, snapshot (metric pair.2))) <$> before)
         ++ [(t, snapshot (metric n))]
    /\ callbacks_inside registered_metric_lock_ false (steps (visit_tagged handler this))
       = true
    /\ last (steps (visit_tagged handler this)) = Some (release registered_metric_lock_).
Proof.
  unfold visit_tagged, visit_each. simpl.
  intros (before & t & n & behind & Hl & Hok & Hthrow & Hseen)%visit_loop_throws.
  exists before, t, n, behind. repeat (split; [done|]). split.
  - by rewrite callbacks_inside_visits.
  - by rewrite app_comm_cons, last_snoc.
Qed.

(** Extra X3. What [aggregate] hands to its visitor is the fold by [merge]
    of the snapshots that [visit] hands to a handler, in the same order:
    nothing for an empty container, the first snapshot merged with the
    others otherwise. *)
Theorem aggregate_folds_what_visit_sees (handler : snapshot_handler)
    (this : registered_metric) :
  (forall t sn e, handler t sn <> throw e) ->
  visits (aggregate this)
  = match (seen (visit_tagged handler this)).*2 with
    | [] => []
    | sn :: sns => [foldl merge sn sns]
    end.
Proof.
  intros Hok. unfold visit_tagged, visit_each, aggregate, aggregate_all.
  rewrite visit_loop_returns by (apply Forall_forall; intros; apply Hok). simpl.
  destruct (map_to_list (metrics_ this)) as [|[t n] rest]; [done|]. simpl.
  rewrite merge_rest_foldl. do 2 f_equal.
  rewrite <- !list_fmap_compose. by apply list_fmap_ext.
Qed.

(** * More of the container: aggregating *)

Section Merge.

(** What [aggregate] promises its caller rests on the [merge] of the
    snapshots: the iteration order of an [unordered_map] is not specified,
    so the aggregate is a function of the container only where [merge] is
    associative and commutative. *)
Hypothesis merge_assoc : forall a b c, merge (merge a b) c = merge a (merge b c).
Hypothesis merge_comm : forall a b, merge a b = merge b a.

Lemma foldl_merge_permutation (l l' : list TSnapshot) :
  l ≡ₚ l' -> forall a, foldl merge a l = foldl merge a l'.
Proof.
  induction 1 as [|x l l' _ IH|x y l|l l' l'' _ IH _ IH']; intros a; simpl.
  - done.
  - apply IH.
  - f_equal. by rewrite !merge_assoc, (merge_comm y x).
  - by rewrite IH.
Qed.

Lemma foldl_merge_nonempty (l l' : list TSnapshot) :
  l ≡ₚ l' ->
  match l with [] => None | a :: rest => Some (foldl merge a rest) end
  = match l' with [] => None | a :: rest => Some (foldl merge a rest) end.
Proof.
  induction 1 as [|x l l' Hl _|x y l|l l' l'' _ IH _ IH']; simpl.
  - done.
  - f_equal. by apply foldl_merge_permutation.
  - by rewrite (merge_comm y x).
  - by rewrite IH.
Qed.

Lemma foldl_merge_last (l : list TSnapshot) : forall a b,
  foldl merge (merge a b) l = merge (foldl merge a l) b.
Proof.
  induction l as [|x l IH]; intros a b; [done|]. simpl.
  rewrite <- IH. f_equal. by rewrite !merge_assoc, (merge_comm b x).
Qed.

Lemma aggregate_of_entries (this : registered_metric) :
  match (fun pair => snapshot (metric pair.2)) <$> map_to_list (metrics_ this) with
  | [] => visits (aggregate this) = []
  | a :: rest => visits (aggregate this) = [foldl merge a rest]
  end.
Proof.
  unfold aggregate, aggregate_all.
  destruct (map_to_list (metrics_ this)) as [|[t n] rest]; [done|]. simpl.
  rewrite merge_rest_foldl. do 2 f_equal.
  rewrite <- list_fmap_compose. by apply list_fmap_ext.
Qed.

(** Extra X4. With an associative and commutative [merge], what [aggregate]
    hands to the visitor does not depend on the order in which the map
    yields its nodes: merging the snapshots of the nodes in any order gives
    the same snapshot. *)
Theorem aggregate_any_order (this : registered_metric)
    (t : tag_collection) (n : node) (rest : list (tag_collection * node)) :
  (t, n) :: rest ≡ₚ map_to_list (metrics_ this) ->
  visits (aggregate this) = [merge_rest (snapshot (metric n)) rest].
Proof.
  intros Hperm.
  apply (fmap_Permutation (fun pair => snapshot (metric pair.2))) in Hperm.
  apply foldl_merge_nonempty in Hperm. rewrite fmap_cons in Hperm.
  pose proof (aggregate_of_entries this) as Hagg.
  destruct ((fun pair => snapshot (metric pair.2)) <$> map_to_list (metrics_ this))
    as [|a l]; [done|].
  injection Hperm as Hperm. rewrite Hagg, <- Hperm, merge_rest_foldl. do 2 f_equal.
  rewrite <- list_fmap_compose. by apply list_fmap_ext.
Qed.

(** Extra X5. With an associative and commutative [merge], an instrument
    that [child] builds for a new tag set joins the aggregate: the visitor
    is handed the aggregate of before merged with the snapshot of the new
    instrument, or that snapshot alone when the container was empty. *)
Theorem new_instrument_joins_aggregate (this : registered_metric)
    (tags : tag_collection) (metricbuilder : metric_builder) (free : addr) (m : TMetric) :
  metrics_ this !! tags = None ->
  metricbuilder tt = ret m ->
  visits (aggregate (st (child tags metricbuilder this free)).1)
  = match visits (aggregate this) with
    | [] => [snapshot m]
    | a :: _ => [merge a (snapshot m)]
    end.
Proof.
  intros Hn Hb. rewrite (child_built _ _ _ _ _ Hn Hb). simpl.
  set (node' := {| address := free; metric := m |}).
  set (this' := {| type_ := type_ this; metrics_ := <[tags := node']> (metrics_ this) |}).
  pose proof (map_to_list_insert (metrics_ this) tags node' Hn) as Hperm.
  apply (fmap_Permutation (fun pair => snapshot (metric pair.2))) in Hperm.
  apply foldl_merge_nonempty in Hperm. rewrite fmap_cons in Hperm. simpl in Hperm.
  pose proof (aggregate_of_entries this') as Hagg'. simpl in Hagg'.
  pose proof (aggregate_of_entries this) as Hagg.
  destruct ((fun pair => snapshot (metric pair.2))
              <$> map_to_list (<[tags := node']> (metrics_ this))) as [|a' l']; [done|].
  injection Hperm as Hperm. rewrite Hagg', Hperm.
  destruct ((fun pair => snapshot (metric pair.2)) <$> map_to_list (metrics_ this))
    as [|a l]; rewrite Hagg; [done|].
  simpl. by rewrite (merge_comm (snapshot m) a), foldl_merge_last.
Qed.

End Merge.

(** * More of the registry *)

Lemma child_other (tags t : tag_collection) (metricbuilder : metric_builder)
    (this : registered_metric) (free : addr) :
  t <> tags ->
  metrics_ (st (child tags metricbuilder this free)).1 !! t = metrics_ this !! t.
Proof.
  intros Hne.
  destruct (child_cases tags metricbuilder this free)
    as [(n & Hn)|[(m & Hn & Hb)|(e & Hn & Hb)]].
  - by rewrite (child_found _ _ _ _ _ Hn).
  - rewrite (child_built _ _ _ _ _ Hn Hb). simpl. by rewrite lookup_insert_ne.
  - by rewrite (child_threw _ _ _ _ _ Hn Hb).
Qed.

Lemma child_free (tags : tag_collection) (metricbuilder : metric_builder)
    (this : registered_metric) (free : addr) :
  free <= (st (child tags metricbuilder this free)).2.
Proof.
  destruct (child_cases tags metricbuilder this free)
    as [(n & Hn)|[(m & Hn & Hb)|(e & Hn & Hb)]].
  - by rewrite (child_found _ _ _ _ _ Hn).
  - rewrite (child_built _ _ _ _ _ Hn Hb). simpl. lia.
  - by rewrite (child_threw _ _ _ _ _ Hn Hb).
Qed.

(** The state a request leaves, by what it finds at the path. *)
Lemma get_tagged_st (mtype : string) (path : metric_path) (tags : tag_collection)
    (ctor : metric_builder) (s : metrics_registry) :
  st (get_tagged mtype path tags ctor s)
  = match repo_ s !! path with
    | Some c =>
        if decide (type_ c = mtype) then
          let k := child tags ctor c (free_ s) in
          {| repo_ := <[path := (st k).1]> (repo_ s); free_ := (st k).2 |}
        else s
    | None =>
        let k := child tags ctor {| type_ := mtype; metrics_ := ∅ |} (free_ s) in
        {| repo_ := <[path := (st k).1]> (repo_ s); free_ := (st k).2 |}
    end.
Proof.
  destruct (repo_ s !! path) as [c|] eqn:Hp.
  - case_decide as Ht.
    + by rewrite (get_tagged_match _ _ _ _ _ _ Hp Ht).
    + by rewrite (get_tagged_mismatch _ _ _ _ _ _ Hp Ht).
  - rewrite (get_tagged_absent _ _ _ _ _ Hp). simpl. by rewrite insert_insert_eq.
Qed.

(** Extra X6. A request works on one place of the registry: the containers
    at the other paths, and the instruments of every other tag set at its
    own path, are the ones of before; when the instrument asked for exists,
    the registry is left as it was, whatever the request returns; and the
    free store never shrinks. *)
Theorem request_leaves_the_rest (mtype : string) (path : metric_path)
    (tags : tag_collection) (ctor : metric_builder) (s : metrics_registry) :
  (forall p, p <> path ->
     repo_ (st (get_tagged mtype path tags ctor s)) !! p = repo_ s !! p)
  /\ (forall p t, p <> path \/ t <> tags ->
        instrument_at (st (get_tagged mtype path tags ctor s)) p t = instrument_at s p t)
  /\ (forall n, instrument_at s path tags = Some n ->
        st (get_tagged mtype path tags ctor s) = s)
  /\ free_ s <= free_ (st (get_tagged mtype path tags ctor s)).
Proof.
  rewrite get_tagged_st. unfold instrument_at.
  destruct (repo_ s !! path) as [c|] eqn:Hp; [case_decide as Ht|]; simpl.
  - split; [|split; [|split]].
    + intros p Hne. by rewrite lookup_insert_ne.
    + intros p t Hne. destruct (decide (p = path)) as [->|Hpp].
      * rewrite lookup_insert_eq, Hp. destruct Hne as [|Hne]; [done|].
        by apply child_other.
      * by rewrite lookup_insert_ne.
    + intros n Hn. rewrite (child_found _ _ _ _ _ Hn). simpl. by apply registry_eta.
    + apply child_free.
  - by repeat split.
  - split; [|split; [|split]].
    + intros p Hne. by rewrite lookup_insert_ne.
    + intros p t Hne. destruct (decide (p = path)) as [->|Hpp].
      * rewrite lookup_insert_eq, Hp. destruct Hne as [|Hne]; [done|].
        rewrite child_other by done. simpl. apply lookup_empty.
      * by rewrite lookup_insert_ne.
    + done.
    + apply child_free.
Qed.

(** Extra X7. A request at a path with no container whose constructor throws
    hands the exception on and builds no instrument, but the container it
    registered on the way stays, empty and with the requested type name:
    from then on every request for another type at that path throws
    [metric_type_mismatch]. *)
Theorem failed_construction_registers_container (mtype : string) (path : metric_path)
    (tags : tag_collection) (ctor : metric_builder) (s : metrics_registry) (e : exn) :
  repo_ s !! path = None ->
  ctor tt = throw e ->
  res (get_tagged mtype path tags ctor s) = throw e
  /\ st (get_tagged mtype path tags ctor s)
     = {| repo_ := <[path := {| type_ := mtype; metrics_ := ∅ |}]> (repo_ s);
          free_ := free_ s |}
  /\ forall (mtype' : string) (tags' : tag_collection) (ctor' : metric_builder),
       mtype' <> mtype ->
       get_tagged mtype' path tags' ctor' (st (get_tagged mtype path tags ctor s))
       = Ran (throw (type_mismatch {| existing_ := mtype; desired_ := mtype' |}))
             (st (get_tagged mtype path tags ctor s))
             [acquire repository_lock_; release repository_lock_].
Proof.
  intros Hp Hctor. rewrite (get_tagged_absent _ _ _ _ _ Hp).
  rewrite (child_threw _ _ _ _ e) by (done || apply lookup_empty). simpl.
  rewrite insert_insert_eq. split; [done|]. split; [done|].
  intros mtype' tags' ctor' Hne.
  apply (get_tagged_mismatch mtype' path tags' ctor' _
           {| type_ := mtype; metrics_ := ∅ |}).
  - simpl. apply lookup_insert_eq.
  - simpl. congruence.
Qed.

Lemma serve_type (rq : request) (s : metrics_registry) (path : metric_path) c :
  repo_ s !! path = Some c ->
  exists c', repo_ (serve s rq) !! path = Some c' /\ type_ c' = type_ c.
Proof.
  intros Hp. destruct rq as [mtype' path' tags' ctor|a f]; simpl.
  - rewrite get_tagged_st.
    destruct (repo_ s !! path') as [c'|] eqn:Hp'; [case_decide as Ht|]; simpl.
    + destruct (decide (path' = path)) as [->|Hne].
      * rewrite lookup_insert_eq. eexists. split; [done|].
        rewrite child_type. congruence.
      * rewrite lookup_insert_ne by done. eauto.
    + eauto.
    + rewrite lookup_insert_ne by congruence. eauto.
  - unfold use. simpl. rewrite lookup_fmap, Hp. simpl. eauto.
Qed.

Lemma serve_all_type (rqs : list request) : forall (s : metrics_registry)
    (path : metric_path) c,
  repo_ s !! path = Some c ->
  exists c', repo_ (serve_all rqs s) !! path = Some c' /\ type_ c' = type_ c.
Proof.
  unfold serve_all. induction rqs as [|rq rqs IH]; intros s path c Hp; [eauto|].
  simpl. destruct (serve_type rq s path c Hp) as (c' & Hp' & <-). by eapply IH.
Qed.

(** Extra X8. The type name registered at a path is there for good: after
    any requests and any work done through references, the path still holds
    a container of that type name, and a request for another type there
    still throws [metric_type_mismatch] and changes nothing. *)
Theorem container_type_is_permanent (s : metrics_registry) (path : metric_path)
    (c : registered_metric) (rqs : list request) :
  repo_ s !! path = Some c ->
  (exists c', repo_ (serve_all rqs s) !! path = Some c' /\ type_ c' = type_ c)
  /\ forall (mtype : string) (tags : tag_collection) (ctor : metric_builder),
       mtype <> type_ c ->
       get_tagged mtype path tags ctor (serve_all rqs s)
       = Ran (throw (type_mismatch {| existing_ := type_ c; desired_ := mtype |}))
             (serve_all rqs s)
             [acquire repository_lock_; release repository_lock_].
Proof.
  intros Hp. destruct (serve_all_type rqs s path c Hp) as (c' & Hp' & Ht).
  split; [eauto|]. intros mtype tags ctor Hne.
  rewrite (get_tagged_mismatch _ _ _ _ _ c' Hp') by congruence. by rewrite Ht.
Qed.

(** Extra X9. Once [ewma] has returned a reference for a path and a tag set,
    every later [ewma] call for them, after any requests and any work done
    through references in between, returns that reference, constructs
    nothing and leaves the registry as it finds it: the window and the
    interval of the later call are ignored, valid or not. *)
Theorem ewma_identity (s : metrics_registry) (name : metric_path) (window interval : Z)
    (tags : tag_collection) (r : addr) :
  res (ewma name window interval tags s) = ret r ->
  forall (rqs : list request) (window' interval' : Z),
    ewma name window' interval' tags (serve_all rqs (st (ewma name window interval tags s)))
    = Ran (ret r) (serve_all rqs (st (ewma name window interval tags s)))
          [acquire repository_lock_; release repository_lock_;
           acquire registered_metric_lock_; release registered_metric_lock_].
Proof.
  intros Hres rqs window' interval'.
  apply get_tagged_ret_registered in Hres.
  apply get_tagged_registered. by apply serve_all_registered.
Qed.

(** Extra X10. [counter<TCount>] returns a reference wherever the path is
    free or holds a container with the type name of [counter<TCount>]. The
    reference is the address of the node held for the tags afterwards:
    the node that was there, with the registry left as it was, or else a
    node with a new counter built with the initial value, at the end of
    the free store. Afterwards the path holds a container of that type
    name. *)
Theorem counter_returns_unless_mismatch (TCount : count_type) (name : metric_path)
    (v : Z) (tags : tag_collection) (s : metrics_registry) :
  (forall c, repo_ s !! name = Some c -> type_ c = counter_type_of TCount) ->
  exists n c',
    res (counter_as TCount name v tags s) = ret (address n)
    /\ instrument_at (st (counter_as TCount name v tags s)) name tags = Some n
    /\ match instrument_at s name tags with
       | Some n0 => n = n0 /\ st (counter_as TCount name v tags s) = s
       | None =>
           n = {| address := free_ s; metric := make_counter_of TCount v |}
           /\ free_ (st (counter_as TCount name v tags s)) = S (free_ s)
       end
    /\ repo_ (st (counter_as TCount name v tags s)) !! name = Some c'
    /\ type_ c' = counter_type_of TCount.
Proof.
  intros Hty. unfold counter_as, instrument_at.
  destruct (repo_ s !! name) as [c|] eqn:Hp.
  - rewrite (get_tagged_match _ _ _ _ _ _ Hp (Hty c eq_refl)).
    destruct (metrics_ c !! tags) as [n|] eqn:Hn.
    + rewrite (child_found _ _ _ _ _ Hn). simpl. exists n, c.
      rewrite lookup_insert_eq, Hn. split; [done|]. split; [done|].
      split; [split; [done|by apply registry_eta]|]. split; [done|]. by apply Hty.
    + rewrite (child_built _ _ _ _ (make_counter_of TCount v) Hn) by done. simpl.
      eexists {| address := free_ s; metric := make_counter_of TCount v |}, _.
      rewrite lookup_insert_eq. simpl. rewrite lookup_insert_eq.
      split; [done|]. split; [done|]. split; [done|]. split; [done|].
      simpl. by apply Hty.
  - rewrite (get_tagged_absent _ _ _ _ _ Hp).
    rewrite (child_built _ _ _ _ (make_counter_of TCount v))
      by (done || apply lookup_empty).
    simpl. eexists {| address := free_ s; metric := make_counter_of TCount v |}, _.
    rewrite lookup_insert_eq. simpl. rewrite lookup_insert_eq. by repeat split.
Qed.

(** Extra X11. For one numeric type, the initial value given to [counter]
    decides nothing but the value of a counter that is built: two calls of
    [counter<TCount>] with different initial values return the same
    reference or throw the same; where the counter exists they are the
    same call; where it does not, each builds a counter with its own
    value. The overload without an initial value is [counter<int64_t>]
    with 0, and so agrees with a call whose initial value is an
    [int64_t]. *)
Theorem initial_value_only_initialises (TCount : count_type) (name : metric_path)
    (v v' : Z) (tags : tag_collection) (s : metrics_registry) :
  res (counter_as TCount name v tags s) = res (counter_as TCount name v' tags s)
  /\ (forall n, instrument_at s name tags = Some n ->
        counter_as TCount name v tags s = counter_as TCount name v' tags s)
  /\ (forall r, instrument_at s name tags = None ->
        res (counter_as TCount name v tags s) = ret r ->
        instrument_at (st (counter_as TCount name v tags s)) name tags
        = Some {| address := r; metric := make_counter_of TCount v |}
        /\ instrument_at (st (counter_as TCount name v' tags s)) name tags
           = Some {| address := r; metric := make_counter_of TCount v' |})
  /\ (forall initialValue : argument,
        type_of initialValue = int64_t ->
        res (counter_call name initialValue tags s) = res (counter_without name tags s)
        /\ (forall n, instrument_at s name tags = Some n ->
              counter_call name initialValue tags s = counter_without name tags s)).
Proof.
  assert (forall T (v v' : Z),
             res (counter_as T name v tags s) = res (counter_as T name v' tags s)
             /\ (forall n, instrument_at s name tags = Some n ->
                   counter_as T name v tags s = counter_as T name v' tags s)
             /\ (forall r, instrument_at s name tags = None ->
                   res (counter_as T name v tags s) = ret r ->
                   instrument_at (st (counter_as T name v tags s)) name tags
                   = Some {| address := r; metric := make_counter_of T v |}
                   /\ instrument_at (st (counter_as T name v' tags s)) name tags
                      = Some {| address := r; metric := make_counter_of T v' |}))
    as Hone.
  { clear v v'. intros T v v'. unfold counter_as, instrument_at.
    destruct (repo_ s !! name) as [c|] eqn:Hp.
    - destruct (decide (type_ c = counter_type_of T)) as [Ht|Ht].
      + rewrite !(get_tagged_match _ _ _ _ _ _ Hp Ht).
        destruct (metrics_ c !! tags) as [n|] eqn:Hn.
        * rewrite !(child_found _ _ _ _ _ Hn). by repeat split.
        * rewrite (child_built _ _ _ _ (make_counter_of T v) Hn) by done.
          rewrite (child_built _ _ _ _ (make_counter_of T v') Hn) by done. simpl.
          split; [done|]. split; [done|]. intros r _ [= <-].
          by rewrite !lookup_insert_eq; simpl; rewrite !lookup_insert_eq.
      + rewrite !(get_tagged_mismatch _ _ _ _ _ _ Hp Ht). simpl.
        split; [done|]. split; [done|]. intros r _. discriminate.
    - rewrite !(get_tagged_absent _ _ _ _ _ Hp).
      rewrite (child_built _ _ _ _ (make_counter_of T v))
        by (done || apply lookup_empty).
      rewrite (child_built _ _ _ _ (make_counter_of T v'))
        by (done || apply lookup_empty).
      simpl. split; [done|]. split; [done|]. intros r _ [= <-].
      by rewrite !lookup_insert_eq; simpl; rewrite !lookup_insert_eq. }
  destruct (Hone TCount v v') as (Hres & Hsame & Hbuilt).
  split; [done|]. split; [done|]. split; [done|].
  intros initialValue Hty. unfold counter_call, counter_without. rewrite Hty.
  destruct (Hone int64_t (value_of initialValue) 0%Z) as (Hres' & Hsame' & _). done.
Qed.

Lemma seen_for_visit (handler : snapshot_handler) (this : registered_metric)
    (t : tag_collection) :
  (forall t sn e, handler t sn <> throw e) ->
  seen_for t (seen (visit_tagged handler this))
  = match metrics_ this !! t with
    | Some n => [snapshot (metric n)]
    | None => []
    end.
Proof.
  intros Hok. unfold visit_tagged, visit_each.
  rewrite visit_loop_returns by (apply Forall_forall; intros; apply Hok). simpl.
  rewrite seen_for_pairs by apply NoDup_fst_map_to_list.
  by rewrite list_to_map_to_list.
Qed.

(** Extra X12. An instrument that a request returned is there for a
    publisher. Every visit of the registry that returns, the handler
    having thrown at no path, has handed over the path of the request
    once, with a container of the requested type name that holds the
    node the reference names for the tags of the request; and a visit of
    that container with a handler that does not throw hands over these
    tags once, with the snapshot of that instrument. *)
Theorem requested_instrument_is_visited (mtype : string) (path : metric_path)
    (tags : tag_collection) (ctor : metric_builder) (s : metrics_registry) (r : addr) :
  res (get_tagged mtype path tags ctor s) = ret r ->
  exists c n,
    repo_ (st (get_tagged mtype path tags ctor s)) !! path = Some c
    /\ type_ c = mtype
    /\ metrics_ c !! tags = Some n
    /\ address n = r
    /\ (forall (fn : registered_handler) (u : unit),
          outcome (visit_registered_metrics fn (st (get_tagged mtype path tags ctor s)))
          = ret u ->
          called_for path
            (called (visit_registered_metrics fn (st (get_tagged mtype path tags ctor s))))
          = [c])
    /\ forall handler : snapshot_handler,
         (forall t sn e, handler t sn <> throw e) ->
         seen_for tags (seen (visit_tagged handler c)) = [snapshot (metric n)].
Proof.
  intros (c & n & Hp & Ht & Hn & Hr)%get_tagged_ret_registered.
  exists c, n. split; [done|]. split; [done|]. split; [done|]. split; [done|]. split.
  - intros fn u. unfold visit_registered_metrics, repo_visit. simpl. intros Hret.
    rewrite (repo_visit_loop_returns _ _ _ Hret).
    rewrite called_for_pairs by apply NoDup_fst_map_to_list.
    by rewrite list_to_map_to_list, Hp.
  - intros handler' Hok. by rewrite seen_for_visit, Hn.
Qed.

(** Extra X13. [get_or_add] uses its builder for a path with no container
    only: after a call the path holds the container the call returned, a
    second call returns that container whatever builder it is given, and
    leaves the repository as it is; a container that was there is returned
    and nothing changes; the other paths are left alone. *)
Theorem get_or_add_builds_once (name : metric_path)
    (builder builder' : unit -> registered_metric) (s : metrics_registry) :
  exists c,
    res (get_or_add name builder s) = ret c
    /\ repo_ (st (get_or_add name builder s)) !! name = Some c
    /\ get_or_add name builder' (st (get_or_add name builder s))
       = Ran (ret c) (st (get_or_add name builder s))
             [acquire repository_lock_; release repository_lock_]
    /\ (forall c0, repo_ s !! name = Some c0 ->
          c = c0 /\ st (get_or_add name builder s) = s)
    /\ (repo_ s !! name = None -> c = builder tt)
    /\ forall p, p <> name -> repo_ (st (get_or_add name builder s)) !! p = repo_ s !! p.
Proof.
  destruct (repo_ s !! name) as [c|] eqn:Hp.
  - assert (get_or_add name builder s
            = Ran (ret c) s [acquire repository_lock_; release repository_lock_]) as ->
      by (unfold get_or_add; by rewrite Hp).
    exists c. simpl. split; [done|]. split; [done|]. split; [|split; [|split]].
    + unfold get_or_add. by rewrite Hp.
    + by intros c0 [= ->].
    + done.
    + done.
  - assert (get_or_add name builder s
            = Ran (ret (builder tt))
                  {| repo_ := <[name := builder tt]> (repo_ s); free_ := free_ s |}
                  [acquire repository_lock_; release repository_lock_]) as ->
      by (unfold get_or_add; by rewrite Hp).
    exists (builder tt). simpl. rewrite lookup_insert_eq.
    split; [done|]. split; [done|]. split; [|split; [|split]].
    + unfold get_or_add. simpl. by rewrite lookup_insert_eq.
    + done.
    + done.
    + intros p Hne. by rewrite lookup_insert_ne.
Qed.


End Registry.

Arguments Ran {_ _ _ _ _ _ _ _} res st log.
Arguments res {_ _ _ _ _ _ _ _} r.
Arguments st {_ _ _ _ _ _ _ _} r.
Arguments log {_ _ _ _ _ _ _ _} r.

(** ** The properties at work *)

(** The registry of the examples: paths are lists of segments, tag sets are
    lists of pairs, the type names are the ones of the specification. *)
Abbreviation example_registry :=
  (@metrics_registry (list string) (list (string * string)) _ _ _ _ instrument).
Abbreviation example_counter :=
  (@counter (list string) (list (string * string)) _ _ _ _ instrument Z
            "counter" a_counter).
Abbreviation example_ewma :=
  (@ewma (list string) (list (string * string)) _ _ _ _ instrument Z
         "ewma" an_ewma).
Abbreviation example_serve_all :=
  (@serve_all (list string) (list (string * string)) _ _ _ _ instrument Z).

(** [counter("a.b", 1)] then [ewma("a.b", 10s, 1s)], whatever the tags. *)
Lemma mismatch_is_thrown_witness :
  res (example_ewma ["a"; "b"] 10 1 [("host", "x")]
         (st (example_counter ["a"; "b"] 1 [] empty_registry)))
  = throw (type_mismatch {| existing_ := "counter"; desired_ := "ewma" |}).
Proof.
  apply (proj2 (mismatch_is_thrown "counter" "ewma" a_counter an_ewma)
           empty_registry ["a"; "b"] 1%Z [] 0).
  - discriminate.
  - vm_compute. reflexivity.
Defined.

Lemma mismatch_leaves_registry_witness :
  let s : example_registry := st (example_counter ["a"; "b"] 1 [] empty_registry) in
  st (example_ewma ["a"; "b"] 10 1 [] s) = s.
Proof.
  intros s.
  apply (proj2 (mismatch_leaves_registry "counter" "ewma" a_counter an_ewma
                  s ["a"; "b"] [] {| existing_ := "counter"; desired_ := "ewma" |})
           10%Z 1%Z).
  vm_compute. reflexivity.
Defined.

(** The counters of the examples, of the numeric types [int] and
    [int64_t]. *)
Abbreviation example_counter_as :=
  (@counter_as (list string) (list (string * string)) _ _ _ _ instrument Z
               scalar counter_name (fun _ => a_counter)).
Abbreviation example_counter_call :=
  (@counter_call (list string) (list (string * string)) _ _ _ _ instrument Z
                 scalar counter_name (fun _ => a_counter)).
Abbreviation example_counter_without :=
  (@counter_without (list string) (list (string * string)) _ _ _ _ instrument Z
                    scalar counter_name (fun _ => a_counter) scalar_int64_t).

(** Claim C3 as stated fails. [counter("a")] returns a reference to a
    [counter<int64_t>]; the later [counter("a", 7)], whose initial value
    is an [int], asks for a [counter<int>] and throws. *)
Lemma counter_of_other_type_is_refused :
  res (example_counter_without ["a"] [] empty_registry) = ret 0
  /\ res (example_counter_call ["a"] {| type_of := scalar_int; value_of := 7 |} []
            (st (example_counter_without ["a"] [] empty_registry)))
     = throw (type_mismatch {| existing_ := "counter<int64_t>";
                               desired_ := "counter<int>" |})
  /\ res (example_counter_call ["a"] {| type_of := scalar_int; value_of := 7 |} []
            (st (example_counter_without ["a"] [] empty_registry)))
     <> ret 0.
Proof. split; [|split]; vm_compute; [reflexivity|reflexivity|discriminate]. Qed.

(** The reference of the first call, [counter("a.b", 1)] with an [int],
    names the counter built with 1; it comes back for [counter("a.b", 7)]
    after an EWMA request at another path and an [incr] through the
    reference, and the initial value of the later call is dropped. *)
Lemma counter_identity_witness :
  let s : example_registry :=
    st (example_counter_as scalar_int ["a"; "b"] 1 [("host", "x")] empty_registry) in
  let s' := example_serve_all [asks "ewma" ["c"] [] (fun _ => ret (an_ewma 10 1));
                       uses 0 (incr 5)] s in
  (exists n, instrument_at s ["a"; "b"] [("host", "x")] = Some n
             /\ address n = 0 /\ metric n = a_counter 1)
  /\ (exists n', instrument_at s' ["a"; "b"] [("host", "x")] = Some n' /\ address n' = 0)
  /\ example_counter_as scalar_int ["a"; "b"] 7 [("host", "x")] s'
     = Ran (ret 0) s'
           [acquire repository_lock_; release repository_lock_;
            acquire registered_metric_lock_; release registered_metric_lock_].
Proof.
  intros s s'.
  destruct (counter_identity (TSnapshot := Z) counter_name (fun _ => a_counter)
              (empty_registry : example_registry) scalar_int
              ["a"; "b"] 1%Z [("host", "x")] 0)
    as [(n & Hn & Hr & Hbuilt) Hlater]; [vm_compute; reflexivity|].
  split.
  - exists n. split; [exact Hn|]. split; [exact Hr|]. exact (proj1 Hbuilt).
  - exact (Hlater [asks "ewma" ["c"] [] (fun _ => ret (an_ewma 10 1)); uses 0 (incr 5)]
             scalar_int 7%Z).
Defined.

Abbreviation example_container :=
  (@registered_metric (list (string * string)) _ _ instrument).
Abbreviation example_child :=
  (@child (list string) (list (string * string)) _ _ instrument Z).
Abbreviation example_tagged :=
  (@tagged (list string) (list (string * string)) _ _ instrument Z).
Abbreviation example_child_calls :=
  (@child_calls (list string) (list (string * string)) _ _ instrument Z).
Abbreviation example_visit :=
  (@visit_registered_metrics (list string) (list (string * string)) _ _ _ _ instrument Z).
Abbreviation example_aggregate :=
  (@aggregate (list string) (list (string * string)) _ _ instrument Z
              instrument_snapshot Z.add).

(** A publisher: the handler of a visit of the registry that aggregates the
    container it is given. *)
Abbreviation publisher :=
  ((fun _ c => (ret tt, example_aggregate c))
   : list string -> example_container -> result unit * list event).

(** A handler that throws at the path [b]. *)
Abbreviation publisher_but_b :=
  ((fun p c => (match p with
                | ["b"] => throw (std_exception "b")
                | _ => ret tt
                end, example_aggregate c))
   : list string -> example_container -> result unit * list event).

(** A builder that raises for the other tag set leaves the one entry of the
    container alone. *)
Lemma child_failure_leaves_container_witness :
  let this : example_container :=
    {| type_ := "ewma";
       metrics_ := {[ [] := {| address := 0; metric := an_ewma 10 1 |} ]} |} in
  st (example_child [("host", "x")] (fun _ => throw invalid_parameter) this 1) = (this, 1)
  /\ st (example_tagged [("host", "x")] (fun _ => throw invalid_parameter) this 1) = (this, 1)
  /\ metrics_ (st (example_child [("host", "x")]
                     (fun _ => throw invalid_parameter) this 1)).1
     = metrics_ this.
Proof.
  intros this.
  apply (child_failure_leaves_container [("host", "x")]
           (fun _ => throw invalid_parameter) this 1 invalid_parameter).
  vm_compute. reflexivity.
Defined.

(** Claim C6 as stated fails. A builder that raises is called again by the next
    call for the tag set: two calls of the builder for one container and one
    tag set. *)
Lemma builder_called_twice :
  ~ length (builds []
              (example_child_calls
                 [([], fun _ => throw invalid_parameter);
                  ([], fun _ => throw invalid_parameter)]
                 {| type_ := "ewma"; metrics_ := ∅ |} 0)) <= 1.
Proof. vm_compute. lia. Qed.

Lemma child_finds_or_builds_witness :
  let this : example_container :=
    {| type_ := "counter";
       metrics_ := {[ [] := {| address := 0; metric := a_counter 1 |} ]} |} in
  example_child [] (fun _ => ret (a_counter 9)) this 1
  = Ran (ret 0) (this, 1)
        [acquire registered_metric_lock_; release registered_metric_lock_]
  /\ builds [] (example_child_calls
                  [([], fun _ => ret (a_counter 9));
                   ([("host", "x")], fun _ => throw invalid_parameter);
                   ([], fun _ => throw invalid_parameter)] this 1) = [].
Proof.
  intros this. split.
  - apply (proj1 (child_finds_or_builds this 1 [])
             (fun _ => ret (a_counter 9)) {| address := 0; metric := a_counter 1 |}).
    vm_compute. reflexivity.
  - apply (proj2 (proj2 (proj2 (proj2 (child_finds_or_builds this 1 [])))) _
             {| address := 0; metric := a_counter 1 |}).
    vm_compute. reflexivity.
Defined.

(** Two counters of one path, 3 and 4, are handed to the visitor as 7. *)
Example aggregate_two_counters :
  visits (@aggregate (list string) _ _ _ _ _ instrument_snapshot Z.add
            ({| type_ := "counter";
                metrics_ := <[ [("host", "x")] := {| address := 1; metric := a_counter 4 |} ]>
                              {[ [] := {| address := 0; metric := a_counter 3 |} ]} |}
             : example_container))
  = [7%Z].
Proof. vm_compute. reflexivity. Qed.

(** Claim C8 as stated fails. A request with window 0 and interval 0 for an
    EWMA that exists returns it. *)
Lemma ewma_request_ignores_parameters :
  (0 <= 0)%Z
  /\ res (example_ewma ["a"] 0 0 [] (st (example_ewma ["a"] 10 1 [] empty_registry)))
     = ret 0
  /\ res (example_ewma ["a"] 0 0 [] (st (example_ewma ["a"] 10 1 [] empty_registry)))
     <> throw invalid_parameter.
Proof. split; [lia|]. split; vm_compute; [reflexivity|discriminate]. Qed.

Lemma ewma_rejects_bad_parameters_witness :
  res (example_ewma ["a"] 0 0 [] empty_registry) = throw invalid_parameter.
Proof.
  apply (proj2 (ewma_rejects_bad_parameters "ewma" an_ewma 0 0)).
  lia.
Defined.


(** The registry after [counter("a", 1)], [counter("b", 2)] and
    [counter("c", 3)]. *)
Abbreviation three_paths :=
  (st (example_counter ["c"] 3 []
         (st (example_counter ["b"] 2 []
                (st (example_counter ["a"] 1 [] empty_registry)))))
   : example_registry).


(** That visit ends with the exception of the handler: the map yields [c],
    [b], [a]; the handler is called with [c] and [b], and [a] is not
    handed over. *)
Example visit_ends_at_throw :
  outcome (example_visit publisher_but_b three_paths) = throw (std_exception "b")
  /\ (map_to_list (repo_ three_paths)).*1 = [["c"]; ["b"]; ["a"]]
  /\ (called (example_visit publisher_but_b three_paths)).*1 = [["c"]; ["b"]]
  /\ called_for ["a"] (called (example_visit publisher_but_b three_paths)) = [].
Proof. repeat split; vm_compute; reflexivity. Qed.

(** *** Visits and aggregates of a container *)

Abbreviation example_visit_tagged :=
  (@visit_tagged (list string) (list (string * string)) _ _ instrument Z
                 instrument_snapshot).
(** A container of two counters: 3 for no tags, 4 for host x. *)
Abbreviation two_counters :=
  ({| type_ := "counter";
      metrics_ := <[ [("host", "x")] := {| address := 1; metric := a_counter 4 |} ]>
                    {[ [] := {| address := 0; metric := a_counter 3 |} ]} |}
   : example_container).

(** A handler that returns. *)
Abbreviation publish :=
  ((fun _ _ => ret tt) : list (string * string) -> Z -> result unit).

(** A handler that throws for the counter without tags. *)
Abbreviation publish_tagged_only :=
  ((fun tags _ => match tags with
                  | [] => throw (std_exception "untagged")
                  | _ :: _ => ret tt
                  end)
   : list (string * string) -> Z -> result unit).

Lemma visit_each_sees_all_witness :
  ended (example_visit_tagged publish two_counters) = ret tt
  /\ seen (example_visit_tagged publish two_counters)
     = snapshots instrument_snapshot two_counters
  /\ (forall t,
        seen_for t (seen (example_visit_tagged publish two_counters))
        = match metrics_ two_counters !! t with
          | Some n => [instrument_snapshot (metric n)]
          | None => []
          end)
  /\ length (seen (example_visit_tagged publish two_counters)) = size (metrics_ two_counters)
  /\ callbacks_inside registered_metric_lock_ false
       (steps (example_visit_tagged publish two_counters)) = true
  /\ last (steps (example_visit_tagged publish two_counters))
     = Some (release registered_metric_lock_).
Proof.
  apply (visit_each_sees_all instrument_snapshot publish two_counters).
  intros t sn e. discriminate.
Defined.

Lemma visit_each_stops_at_throw_witness :
  exists before t n behind,
    map_to_list (metrics_ two_counters) = before ++ (t, n) :: behind
    /\ Forall (fun pair => exists u,
                 publish_tagged_only pair.1 (instrument_snapshot (metric pair.2)) = ret u)
              before
    /\ publish_tagged_only t (instrument_snapshot (metric n))
       = throw (std_exception "untagged")
    /\ seen (example_visit_tagged publish_tagged_only two_counters)
       = ((fun pair => (pair.1, instrument_snapshot (metric pair.2))) <$> before)
         ++ [(t, instrument_snapshot (metric n))]
    /\ callbacks_inside registered_metric_lock_ false
         (steps (example_visit_tagged publish_tagged_only two_counters)) = true
    /\ last (steps (example_visit_tagged publish_tagged_only two_counters))
       = Some (release registered_metric_lock_).
Proof.
  apply (visit_each_stops_at_throw instrument_snapshot publish_tagged_only two_counters
           (std_exception "untagged")).
  vm_compute. reflexivity.
Defined.

Lemma aggregate_folds_what_visit_sees_witness :
  visits (example_aggregate two_counters)
  = match (seen (example_visit_tagged publish two_counters)).*2 with
    | [] => @nil Z
    | sn :: sns => [foldl Z.add sn sns]
    end.
Proof.
  apply (aggregate_folds_what_visit_sees instrument_snapshot Z.add publish two_counters).
  intros t sn e. discriminate.
Defined.

(** The two counters merged from the untagged one on, against the order of
    the map, give what [aggregate] hands out. *)
Lemma aggregate_any_order_witness :
  visits (example_aggregate two_counters)
  = [merge_rest instrument_snapshot Z.add
       (instrument_snapshot (a_counter 3))
       [([("host", "x")], {| address := 1; metric := a_counter 4 |})]].
Proof.
  apply (aggregate_any_order instrument_snapshot Z.add
           (fun a b c => eq_sym (Z.add_assoc a b c)) Z.add_comm
           two_counters [] {| address := 0; metric := a_counter 3 |}
           [([("host", "x")], {| address := 1; metric := a_counter 4 |})]).
  vm_compute. apply Permutation_swap.
Defined.

(** A third counter, 5 for host y, is added to the 7 of the two. *)
Lemma new_instrument_joins_aggregate_witness :
  visits (example_aggregate
            (st (example_child [("host", "y")] (fun _ => ret (a_counter 5))
                   two_counters 2)).1)
  = match visits (example_aggregate two_counters) with
    | [] => [instrument_snapshot (a_counter 5)]
    | a :: _ => [(a + instrument_snapshot (a_counter 5))%Z]
    end.
Proof.
  apply (new_instrument_joins_aggregate instrument_snapshot Z.add
           (fun a b c => eq_sym (Z.add_assoc a b c)) Z.add_comm
           two_counters [("host", "y")] (fun _ => ret (a_counter 5)) 2 (a_counter 5)).
  - vm_compute. reflexivity.
  - reflexivity.
Defined.

(** A log that takes the lock of a container while the lock of the
    repository is held is not one lock at a time. *)
Example nested_locks_are_seen :
  one_lock_at_a_time None
    ([acquire repository_lock_; acquire registered_metric_lock_;
      release registered_metric_lock_; release repository_lock_]
     : list (@event (list string) (list (string * string)) _ _ instrument Z))
  = false.
Proof. reflexivity. Qed.

(** *** Requests *)

Abbreviation example_get_tagged :=
  (@get_tagged (list string) (list (string * string)) _ _ _ _ instrument Z).

(** [ewma("a", 0s, 0s)] on a new registry throws [invalid_parameter]; a
    [counter("a")] after it throws [metric_type_mismatch]. *)
Lemma failed_construction_registers_container_witness :
  res (example_ewma ["a"] 0 0 [] empty_registry) = throw invalid_parameter
  /\ res (example_counter ["a"] 1 []
            (st (example_ewma ["a"] 0 0 [] empty_registry)))
     = throw (type_mismatch {| existing_ := "ewma"; desired_ := "counter" |}).
Proof.
  destruct (failed_construction_registers_container (TSnapshot := Z) "ewma" ["a"] []
              (fun _ => ewma_ctor an_ewma 0 0) (empty_registry : example_registry)
              invalid_parameter)
    as (Hres & _ & Hlater); [vm_compute; reflexivity..|].
  split; [exact Hres|].
  unfold counter, ewma.
  by rewrite (Hlater "counter" [] (fun _ => ret (a_counter 1))).
Defined.

Lemma container_type_is_permanent_witness :
  let s : example_registry := st (example_counter ["a"] 1 [] empty_registry) in
  let rqs := [asks "counter" ["a"] [("host", "x")] (fun _ => ret (a_counter 2));
              uses 0 (incr 5);
              asks "ewma" ["b"] [] (fun _ => ret (an_ewma 10 1))] in
  res (example_ewma ["a"] 10 1 [] (example_serve_all rqs s))
  = throw (type_mismatch {| existing_ := "counter"; desired_ := "ewma" |}).
Proof.
  intros s rqs.
  destruct (container_type_is_permanent (TSnapshot := Z) s ["a"]
              {| type_ := "counter";
                 metrics_ := {[ [] := {| address := 0; metric := a_counter 1 |} ]} |}
              rqs)
    as [_ Hlater]; [vm_compute; reflexivity|].
  unfold ewma.
  by rewrite (Hlater "ewma" [] (fun _ => ewma_ctor an_ewma 10 1)).
Defined.

(** The reference of the first call comes back for a later call with window
    0 and interval 0. *)
Lemma ewma_identity_witness :
  let s : example_registry := st (example_ewma ["a"] 10 1 [] empty_registry) in
  let s' := example_serve_all [asks "counter" ["c"] [] (fun _ => ret (a_counter 1))] s in
  example_ewma ["a"] 0 0 [] s'
  = Ran (ret 0) s'
        [acquire repository_lock_; release repository_lock_;
         acquire registered_metric_lock_; release registered_metric_lock_].
Proof.
  intros s s'.
  apply (ewma_identity "ewma" an_ewma empty_registry ["a"] 10%Z 1%Z [] 0).
  vm_compute. reflexivity.
Defined.

(** A second counter at a path that holds one: it is built with its initial
    value at the end of the free store. *)
Lemma counter_returns_unless_mismatch_witness :
  let s : example_registry :=
    st (example_counter_as scalar_int ["a"] 1 [] empty_registry) in
  exists n c',
    res (example_counter_as scalar_int ["a"] 7 [("host", "x")] s) = ret (address n)
    /\ instrument_at (st (example_counter_as scalar_int ["a"] 7 [("host", "x")] s))
         ["a"] [("host", "x")] = Some n
    /\ match instrument_at s ["a"] [("host", "x")] with
       | Some n0 =>
           n = n0 /\ st (example_counter_as scalar_int ["a"] 7 [("host", "x")] s) = s
       | None =>
           n = {| address := free_ s; metric := a_counter 7 |}
           /\ free_ (st (example_counter_as scalar_int ["a"] 7 [("host", "x")] s))
              = S (free_ s)
       end
    /\ repo_ (st (example_counter_as scalar_int ["a"] 7 [("host", "x")] s)) !! ["a"]
       = Some c'
    /\ type_ c' = "counter<int>".
Proof.
  intros s.
  apply (counter_returns_unless_mismatch counter_name (fun _ => a_counter)
           scalar_int ["a"] 7%Z [("host", "x")] s).
  intros c. vm_compute. by intros [= <-].
Defined.

Lemma requested_instrument_is_visited_witness :
  exists c n,
    repo_ (st (example_counter ["a"] 1 [] empty_registry)) !! ["a"] = Some c
    /\ type_ c = "counter"
    /\ metrics_ c !! [] = Some n
    /\ address n = 0
    /\ (forall (fn : registered_handler) (u : unit),
          outcome (example_visit fn (st (example_counter ["a"] 1 [] empty_registry)))
          = ret u ->
          called_for ["a"]
            (called (example_visit fn (st (example_counter ["a"] 1 [] empty_registry))))
          = [c])
    /\ forall handler : snapshot_handler,
         (forall t sn e, handler t sn <> throw e) ->
         seen_for [] (seen (example_visit_tagged handler c))
         = [instrument_snapshot (metric n)].
Proof.
  apply (requested_instrument_is_visited instrument_snapshot "counter" ["a"] []
           (fun _ => ret (a_counter 1)) empty_registry 0).
  vm_compute. reflexivity.
Defined.

(** Two requests that return the reference 1 asked for the same counter. *)
Lemma reference_names_instrument_witness :
  (["b"] : list string) = ["b"] /\ ([] : list (string * string)) = [].
Proof.
  apply (reference_names_instrument (TMetric := instrument) (TSnapshot := Z)
           [asks "counter" ["a"] [] (fun _ => ret (a_counter 1))]
           "counter" "counter" ["b"] ["b"] [] []
           (fun _ => ret (a_counter 2)) (fun _ => ret (a_counter 3)) 1);
    vm_compute; reflexivity.
Defined.

End Registry.

(** * Part III: the skiplist, its properties *)

Module SkiplistTheory.
Import Skiplist.

Local Open Scope Z_scope.

(** ** Writes and what they leave alone *)

Lemma set_next_length pred target s :
  length (nodes (set_next pred target s)) = length (nodes s).
Proof. destruct pred; simpl; [apply length_alter|done]. Qed.

Lemma set_next_lookup_ne pred target s (i : nat) :
  pred <> Some i -> nodes (set_next pred target s) !! i = nodes s !! i.
Proof.
  destruct pred as [p|]; simpl; [|done].
  intros Hne. apply list_lookup_alter_ne. congruence.
Qed.

Lemma set_next_lookup_eq p target s n :
  nodes s !! p = Some n ->
  nodes (set_next (Some p) target s) !! p
  = Some {| key := key n; next := target; marked := marked n |}.
Proof. intros Hn. simpl. by rewrite list_lookup_alter_eq, Hn. Qed.

Lemma set_next_lookup pred target s (i : nat) n' :
  nodes (set_next pred target s) !! i = Some n' ->
  exists n, nodes s !! i = Some n /\ key n' = key n /\ marked n' = marked n
            /\ (pred <> Some i -> n' = n)
            /\ (pred = Some i -> next n' = target).
Proof.
  destruct (decide (pred = Some i)) as [->|Hne].
  - simpl. rewrite list_lookup_alter_eq.
    destruct (nodes s !! i) as [n|]; [|done]. simpl. intros [= <-].
    exists n. by repeat split.
  - rewrite set_next_lookup_ne by done. intros Hn. exists n'. by repeat split.
Qed.

Lemma set_mark_lookup_ne c s (i : nat) :
  i <> c -> nodes (set_mark c s) !! i = nodes s !! i.
Proof. intros Hne. simpl. by apply list_lookup_alter_ne. Qed.

Lemma set_mark_lookup_eq c s n :
  nodes s !! c = Some n ->
  nodes (set_mark c s) !! c = Some {| key := key n; next := next n; marked := true |}.
Proof. intros Hn. simpl. by rewrite list_lookup_alter_eq, Hn. Qed.

(** ** Segments *)

Lemma seg_ext s s' l : forall from to,
  (forall i, i ∈ l -> nodes s' !! i = nodes s !! i) ->
  seg s from l to -> seg s' from l to.
Proof.
  induction l as [|c l IH]; intros from to Hsame; [done|].
  simpl. intros (-> & n & Hn & Hseg). split; [done|]. exists n. split.
  - rewrite Hsame; [done|]. set_solver.
  - apply IH; [|done]. intros i Hi. apply Hsame. set_solver.
Qed.

Lemma seg_app s l1 l2 : forall from to,
  seg s from (l1 ++ l2) to <-> exists mid, seg s from l1 mid /\ seg s mid l2 to.
Proof.
  induction l1 as [|c l1 IH]; intros from to; simpl.
  - split; [intros Hs; by exists from|]. by intros (mid & -> & Hs).
  - split.
    + intros (-> & n & Hn & Hseg). apply IH in Hseg as (mid & H1 & H2).
      exists mid. split; [|done]. split; [done|]. by exists n.
    + intros (mid & (-> & n & Hn & H1) & H2). split; [done|]. exists n.
      split; [done|]. apply IH. by exists mid.
Qed.

Lemma seg_valid s l : forall from to i,
  seg s from l to -> i ∈ l -> is_Some (nodes s !! i).
Proof.
  induction l as [|c l IH]; intros from to i; [set_solver|].
  simpl. intros (-> & n & Hn & Hseg) [->|Hi]%elem_of_cons; [by exists n|].
  by eapply IH.
Qed.

Lemma seg_end s l : forall from, seg s from l None -> l = [] -> from = None.
Proof. intros from Hs ->. done. Qed.

(** The pointer a path starts from is its first node. *)
Lemma path_head s cur l : path s cur l -> cur = hd_error l.
Proof. destruct l as [|c l]; [done|]. by intros (-> & _). Qed.

Lemma seg_unique s l1 : forall l2 from,
  seg s from l1 None -> seg s from l2 None -> l1 = l2.
Proof.
  induction l1 as [|c l1 IH]; intros [|c2 l2] from; simpl; try done.
  - intros -> (? & _). done.
  - intros (-> & _) ?. done.
  - intros (-> & n & Hn & H1) ([= <-] & n2 & Hn2 & H2).
    f_equal. eapply IH; [done|]. congruence.
Qed.

(** ** Keys ascend along the pointers *)

Lemma key_at_lookup s i n : nodes s !! i = Some n -> key_at s i = key n.
Proof. intros Hn. unfold key_at. by rewrite Hn. Qed.

Lemma seg_above s : ordered s -> forall l from to, seg s from l to ->
  forall c n, nodes s !! c = Some n -> next n = from ->
    Forall (fun i => key n < key_at s i) l
    /\ forall j, to = Some j -> key n < key_at s j.
Proof.
  intros Hord. induction l as [|c' l IH]; intros from to Hseg c n Hn Hnext.
  - simpl in Hseg. subst from. split; [done|]. intros j ->.
    destruct (Hord _ _ _ Hn Hnext) as (m & Hm & Hlt).
    by rewrite (key_at_lookup _ _ _ Hm).
  - destruct Hseg as (-> & n' & Hn' & Hseg).
    destruct (Hord _ _ _ Hn Hnext) as (m & Hm & Hlt).
    assert (m = n') as -> by congruence.
    destruct (IH _ _ Hseg c' n' Hn' eq_refl) as [Hall Hto]. split.
    + constructor; [by rewrite (key_at_lookup _ _ _ Hn')|].
      eapply Forall_impl; [done|]. simpl. intros; lia.
    + intros j Hj. specialize (Hto j Hj). lia.
Qed.

Lemma seg_sorted s : ordered s -> forall l from to, seg s from l to ->
  StronglySorted Z.lt (key_at s <$> l).
Proof.
  intros Hord. induction l as [|c l IH]; intros from to Hseg; [constructor|].
  destruct Hseg as (-> & n & Hn & Hseg). simpl. constructor; [by eapply IH|].
  apply Forall_fmap. rewrite (key_at_lookup _ _ _ Hn).
  by destruct (seg_above s Hord _ _ _ Hseg c n Hn eq_refl).
Qed.

Lemma sorted_keys_NoDup (f : nat -> Z) (l : list nat) :
  StronglySorted Z.lt (f <$> l) -> NoDup l.
Proof.
  induction l as [|c l IH]; [constructor|]. simpl.
  intros [Hs Hall]%StronglySorted_inv. constructor; [|by apply IH].
  intros Hin. rewrite Forall_fmap, Forall_forall in Hall.
  specialize (Hall c Hin). simpl in Hall. lia.
Qed.

Lemma seg_NoDup s l from to : ordered s -> seg s from l to -> NoDup l.
Proof.
  intros Hord Hseg. eapply (sorted_keys_NoDup (key_at s)), seg_sorted; eauto.
Qed.

(** A chain is no longer than the arena. *)
Lemma seg_length s l from to :
  ordered s -> seg s from l to -> (length l <= length (nodes s))%nat.
Proof.
  intros Hord Hseg.
  replace (length (nodes s)) with (length (seq 0%nat (length (nodes s))))
    by apply length_seq.
  apply submseteq_length, NoDup_submseteq; [by eapply seg_NoDup|].
  intros i Hi. apply elem_of_seq.
  destruct (seg_valid _ _ _ _ i Hseg Hi) as [n Hn].
  apply lookup_lt_Some in Hn. lia.
Qed.

(** Any list splits at the first key that is not below [k]. *)
Lemma split_at_key s k (l : list nat) :
  exists l1 l2, l = l1 ++ l2
    /\ Forall (fun i => key_at s i < k) l1
    /\ match l2 with [] => True | j :: _ => k <= key_at s j end.
Proof.
  induction l as [|c l (l1 & l2 & -> & Hall & Hhd)].
  - by exists [], [].
  - destruct (decide (key_at s c < k)) as [Hlt|Hge].
    + exists (c :: l1), l2. by repeat split; [constructor|].
    + exists [], (c :: l1 ++ l2). repeat split; [done|]. simpl. lia.
Qed.

(** ** The search along unmarked nodes *)

Lemma pred_after_cons pred c l : pred_after pred (c :: l) = pred_after (Some c) l.
Proof.
  unfold pred_after. rewrite last_cons. by destruct (last l).
Qed.

Lemma search_prefix s k l1 : forall fuel pred from to,
  seg s from l1 to ->
  Forall (fun i => exists n, nodes s !! i = Some n /\ marked n = false /\ key n < k) l1 ->
  search (length l1 + fuel) k pred from s = search fuel k (pred_after pred l1) to s.
Proof.
  induction l1 as [|c l1 IH]; intros fuel pred from to Hseg Hall.
  - simpl in Hseg. by subst.
  - destruct Hseg as (-> & n & Hn & Hseg).
    apply Forall_cons in Hall as [(n' & Hn' & Hm & Hk) Hall].
    assert (n' = n) as -> by congruence.
    simpl. rewrite Hn, Hm. simpl.
    destruct (Z.ltb_spec (key n) k); [|lia].
    rewrite pred_after_cons. by apply IH.
Qed.

Lemma search_end fuel k pred s : search (S fuel) k pred None s = Some (s, pred, None).
Proof. done. Qed.

Lemma search_marked fuel k pred c s n :
  nodes s !! c = Some n -> marked n = true ->
  search (S fuel) k pred (Some c) s
  = search fuel k pred (next n) (set_next pred (next n) s).
Proof. intros Hn Hm. simpl. by rewrite Hn, Hm. Qed.

Lemma search_stop fuel k pred c s n :
  nodes s !! c = Some n -> marked n = false -> k <= key n ->
  search (S fuel) k pred (Some c) s = Some (s, pred, Some c).
Proof.
  intros Hn Hm Hk. simpl. rewrite Hn, Hm.
  by destruct (Z.ltb_spec (key n) k); [lia|].
Qed.

Lemma chain_unmarked s l i :
  chain s l -> i ∈ l -> exists n, nodes s !! i = Some n /\ marked n = false.
Proof.
  intros [Hpath Hmarks] Hi.
  destruct (seg_valid _ _ _ _ i Hpath Hi) as [n Hn].
  exists n. split; [done|]. by apply (Hmarks i n Hn).
Qed.

(** On a list whose chain is unmarked, a search changes nothing and stops
    where the keys reach [k]. *)
Lemma locate_clean s l k :
  ordered s -> chain s l ->
  exists l1 l2, l = l1 ++ l2
    /\ Forall (fun i => key_at s i < k) l1
    /\ match l2 with [] => True | j :: _ => k <= key_at s j end
    /\ seg s (head s) l1 (hd_error l2)
    /\ path s (hd_error l2) l2
    /\ locate k s = Some (s, pred_after None l1, hd_error l2).
Proof.
  intros Hord Hchain.
  destruct (split_at_key s k l) as (l1 & l2 & -> & Hlt & Hge).
  exists l1, l2. split; [done|]. split; [done|]. split; [done|].
  pose proof Hchain as [Hpath _].
  apply seg_app in Hpath as (mid & H1 & H2).
  pose proof (path_head _ _ _ H2) as ->.
  split; [done|]. split; [done|].
  assert (length (l1 ++ l2) <= length (nodes s))%nat as Hlen.
  { eapply seg_length; [done|]. apply seg_app. eauto. }
  rewrite length_app in Hlen.
  unfold locate, fuel_of.
  replace (S (length (nodes s)))
    with (length l1 + S (length (nodes s) - length l1))%nat by lia.
  rewrite (search_prefix s k l1 _ _ _ _ H1).
  - destruct l2 as [|j l2]; [done|]. simpl.
    destruct (chain_unmarked s _ j Hchain) as (m & Hm & Hu).
    { apply elem_of_app. right. apply list_elem_of_here. }
    rewrite Hm, Hu. simpl. rewrite (key_at_lookup _ _ _ Hm) in Hge.
    by destruct (Z.ltb_spec (key m) k); [lia|].
  - rewrite Forall_forall in Hlt. apply Forall_forall. intros i Hi.
    destruct (chain_unmarked s _ i Hchain) as (n & Hn & Hu).
    { apply elem_of_app. by left. }
    exists n. repeat split; [done..|].
    specialize (Hlt i Hi). by rewrite (key_at_lookup _ _ _ Hn) in Hlt.
Qed.

(** The keys of the chain, in its order. *)
Lemma chain_sorted s l : ordered s -> chain s l -> StronglySorted Z.lt (key_at s <$> l).
Proof. intros Hord [Hpath _]. by eapply seg_sorted. Qed.

(** Where the search stops on a key of the chain is the node of that key;
    on any other key, past the keys below and before the keys above. *)
Lemma locate_clean_key s l k :
  ordered s -> chain s l ->
  exists l1 l2, l = l1 ++ l2
    /\ Forall (fun i => key_at s i < k) l1
    /\ seg s (head s) l1 (hd_error l2)
    /\ path s (hd_error l2) l2
    /\ locate k s = Some (s, pred_after None l1, hd_error l2)
    /\ (if decide (k ∈ key_at s <$> l)
        then holds k (hd_error l2) s = true
        else holds k (hd_error l2) s = false
             /\ Forall (fun i => k < key_at s i) l2).
Proof.
  intros Hord Hchain.
  destruct (locate_clean s l k Hord Hchain)
    as (l1 & l2 & -> & Hlt & Hge & Hseg1 & Hseg2 & Hloc).
  exists l1, l2. repeat (split; [done|]).
  pose proof (chain_sorted _ _ Hord Hchain) as Hsorted.
  rewrite fmap_app in Hsorted.
  apply StronglySorted_app_1_r in Hsorted as Hs2.
  destruct l2 as [|j l2].
  - rewrite app_nil_r. case_decide as Hin; [|done].
    apply list_elem_of_fmap in Hin as (i & -> & Hi).
    rewrite Forall_forall in Hlt. specialize (Hlt i Hi). lia.
  - simpl in *. apply StronglySorted_inv in Hs2 as [_ Hall].
    rewrite Forall_fmap in Hall.
    destruct (seg_valid _ _ _ _ j Hseg2) as [m Hm]; [set_solver|].
    rewrite Hm. rewrite (key_at_lookup _ _ _ Hm) in *.
    case_decide as Hin.
    + apply Z.eqb_eq.
      rewrite fmap_app, elem_of_app in Hin. destruct Hin as [Hin|Hin].
      * apply list_elem_of_fmap in Hin as (i & -> & Hi).
        rewrite Forall_forall in Hlt. specialize (Hlt i Hi). lia.
      * simpl in Hin. rewrite (key_at_lookup _ _ _ Hm) in Hin.
        apply elem_of_cons in Hin as [->|Hin]; [done|].
        apply list_elem_of_fmap in Hin as (i & -> & Hi).
        rewrite Forall_forall in Hall. specialize (Hall i Hi). simpl in Hall. lia.
    + assert (key m <> k) as Hne.
      { intros <-. apply Hin. rewrite fmap_app, elem_of_app. right. simpl.
        rewrite (key_at_lookup _ _ _ Hm). set_solver. }
      split; [by apply Z.eqb_neq|].
      constructor; [rewrite (key_at_lookup _ _ _ Hm); lia|].
      eapply Forall_impl; [done|]. simpl. intros; lia.
Qed.

(** ** Insert *)

Lemma insert_present s l k :
  ordered s -> chain s l -> k ∈ key_at s <$> l -> insert k s = Some (false, s).
Proof.
  intros Hord Hchain Hin.
  destruct (locate_clean_key s l k Hord Hchain)
    as (l1 & l2 & -> & _ & _ & _ & Hloc & Hholds).
  rewrite decide_True in Hholds by done.
  unfold insert. by rewrite Hloc, Hholds.
Qed.

Lemma seg_alloc s new l from to :
  seg s from l to -> seg (alloc new s) from l to.
Proof.
  intros Hseg. eapply seg_ext; [|done]. intros i Hi.
  destruct (seg_valid _ _ _ _ i Hseg Hi) as [n Hn].
  simpl. by rewrite (lookup_app_l_Some _ _ _ _ Hn).
Qed.

Lemma seg_set_next_other s pred target l from to :
  (forall p, pred = Some p -> p ∉ l) ->
  seg s from l to -> seg (set_next pred target s) from l to.
Proof.
  intros Hp Hseg. eapply seg_ext; [|done]. intros i Hi.
  apply set_next_lookup_ne. intros ->. by apply (Hp i).
Qed.

Lemma seg_set_next_last s l p target from to :
  p ∉ l ->
  seg s from (l ++ [p]) to ->
  seg (set_next (Some p) target s) from (l ++ [p]) target.
Proof.
  intros Hp (mid & H1 & (-> & n & Hn & _))%seg_app.
  apply seg_app. exists (Some p). split.
  - apply seg_set_next_other; [|done]. by intros ? [= <-].
  - split; [done|]. eexists. split; [by apply set_next_lookup_eq|done].
Qed.

(** The arena after the writes of an insert: the node allocated and the
    pointer of the predecessor. *)
Lemma linked_lookup s pred new (i : nat) n' :
  pred <> Some (length (nodes s)) ->
  nodes (set_next pred (Some (length (nodes s))) (alloc new s)) !! i = Some n' ->
  (i = length (nodes s) /\ n' = new)
  \/ (exists n, nodes s !! i = Some n /\ key n' = key n /\ marked n' = marked n
       /\ (pred <> Some i -> n' = n)
       /\ (pred = Some i -> next n' = Some (length (nodes s)))).
Proof.
  intros Hpred Hn'.
  apply set_next_lookup in Hn' as (n0 & Hn0 & Hk & Hm & Hne & Heq).
  simpl in Hn0. apply lookup_snoc_Some in Hn0 as [[_ Hn0]|[-> <-]].
  - right. exists n0. by repeat split.
  - left. split; [done|]. by apply Hne.
Qed.

Lemma linked_lookup_old s pred new (i : nat) n :
  nodes s !! i = Some n ->
  exists n', nodes (set_next pred (Some (length (nodes s))) (alloc new s)) !! i = Some n'
    /\ key n' = key n /\ marked n' = marked n
    /\ (pred <> Some i -> next n' = next n).
Proof.
  intros Hn.
  assert (nodes (alloc new s) !! i = Some n) as Hn0.
  { simpl. by apply lookup_app_l_Some. }
  destruct (decide (pred = Some i)) as [->|Hne].
  - eexists. split; [by apply set_next_lookup_eq|done].
  - exists n. by rewrite set_next_lookup_ne.
Qed.

Lemma linked_lookup_new s pred new :
  pred <> Some (length (nodes s)) ->
  nodes (set_next pred (Some (length (nodes s))) (alloc new s)) !! length (nodes s)
  = Some new.
Proof.
  intros Hne. rewrite set_next_lookup_ne by done. simpl.
  by apply list_lookup_middle.
Qed.

Lemma pred_after_None_inv l p :
  pred_after None l = Some p -> exists l', l = l' ++ [p].
Proof.
  unfold pred_after. destruct (last l) as [q|] eqn:Hl; [|done].
  intros [= ->]. by apply last_Some.
Qed.

Lemma pred_after_None_nil l : pred_after None l = None -> l = [].
Proof.
  unfold pred_after. destruct (last l) as [q|] eqn:Hl; [done|].
  intros _. by apply last_None.
Qed.

(** An insert of a key that the chain does not hold puts a node for it in
    its place in the chain, and keeps the list well formed. *)
Lemma insert_absent s l k :
  ordered s -> chain s l -> k ∉ key_at s <$> l ->
  exists l1 l2 s', l = l1 ++ l2
    /\ Forall (fun i => key_at s i < k) l1
    /\ Forall (fun i => k < key_at s i) l2
    /\ insert k s = Some (true, s')
    /\ ordered s'
    /\ chain s' (l1 ++ length (nodes s) :: l2)
    /\ key_at s' (length (nodes s)) = k
    /\ length (nodes s') = S (length (nodes s))
    /\ after_step None s s'.
Proof.
  intros Hord Hchain Hnin.
  destruct (locate_clean_key s l k Hord Hchain)
    as (l1 & l2 & -> & Hlt & Hseg1 & Hseg2 & Hloc & Hholds).
  rewrite decide_False in Hholds by done. destruct Hholds as [Hholds Hgt].
  set (new := {| key := k; next := hd_error l2; marked := false |}).
  set (pred := pred_after None l1) in *.
  exists l1, l2, (set_next pred (Some (length (nodes s))) (alloc new s)).
  assert (NoDup (l1 ++ l2)) as Hnd by (destruct Hchain; by eapply seg_NoDup).
  assert (forall i, i ∈ l1 ++ l2 -> (i < length (nodes s))%nat) as Hvalid.
  { intros i Hi. destruct (chain_unmarked _ _ i Hchain Hi) as (n & Hn & _).
    by apply lookup_lt_Some in Hn. }
  assert (pred <> Some (length (nodes s))) as Hpred.
  { intros (l' & ->)%pred_after_None_inv.
    assert (length (nodes s) < length (nodes s))%nat; [|lia].
    apply Hvalid. rewrite !elem_of_app. left. right. apply list_elem_of_here. }
  pose proof (linked_lookup_new s pred new Hpred) as Hnew.
  split; [done|]. split; [done|]. split; [done|]. split.
  { unfold insert. by rewrite Hloc, Hholds. }
  split; [|split; [|split; [|split]]].
  - intros i n' j Hn' Hnext.
    destruct (linked_lookup _ _ _ _ _ Hpred Hn')
      as [[-> ->]|(n & Hn & Hk & Hm & Hne & Heq)].
    + simpl in Hnext. destruct l2 as [|j' l2]; [done|].
      simpl in Hnext. injection Hnext as ->.
      apply Forall_cons in Hgt as [Hgt _].
      destruct (chain_unmarked _ _ j Hchain) as (m & Hm & _).
      { apply elem_of_app. right. apply list_elem_of_here. }
      destruct (linked_lookup_old s pred new j m Hm) as (m' & Hm' & Hk' & _).
      exists m'. split; [done|]. rewrite (key_at_lookup _ _ _ Hm) in Hgt.
      simpl. lia.
    + destruct (decide (pred = Some i)) as [Hp|Hp].
      * rewrite (Heq Hp) in Hnext. injection Hnext as <-.
        exists new. split; [done|]. simpl. rewrite Hk.
        destruct (pred_after_None_inv _ _ Hp) as (l' & ->).
        rewrite Forall_forall in Hlt. specialize (Hlt i).
        rewrite (key_at_lookup _ _ _ Hn) in Hlt. apply Hlt.
        apply elem_of_app. right. apply list_elem_of_here.
      * rewrite (Hne Hp) in *.
        destruct (Hord _ _ _ Hn Hnext) as (m & Hm' & Hlt').
        destruct (linked_lookup_old s pred new j m Hm') as (m' & Hm'' & Hk' & _).
        exists m'. split; [done|]. lia.
  - assert (seg (set_next pred (Some (length (nodes s))) (alloc new s))
              (Some (length (nodes s))) (length (nodes s) :: l2) None) as Htail.
    { split; [done|]. exists new. split; [done|]. simpl.
      apply seg_set_next_other.
      - intros p (l' & ->)%pred_after_None_inv Hp.
        rewrite <- (assoc_L (++)) in Hnd.
        apply NoDup_app in Hnd as (_ & _ & Hnd).
        apply NoDup_app in Hnd as (_ & Hnd & _).
        apply (Hnd p); [apply list_elem_of_here|done].
      - by apply seg_alloc. }
    split.
    + unfold path. apply seg_app.
      exists (Some (length (nodes s))). split; [|done].
      destruct pred as [p|] eqn:Hp.
      * destruct (pred_after_None_inv _ _ Hp) as (l' & ->).
        change (head (set_next (Some p) (Some (length (nodes s))) (alloc new s)))
          with (head s).
        eapply seg_set_next_last.
        -- apply NoDup_app in Hnd as (Hnd & _).
           apply NoDup_app in Hnd as (_ & Hnd & _).
           intros Hin. apply (Hnd p Hin), list_elem_of_here.
        -- apply seg_alloc. done.
      * apply pred_after_None_nil in Hp as ->. done.
    + intros i n' Hn'. rewrite elem_of_app, elem_of_cons.
      destruct (linked_lookup _ _ _ _ _ Hpred Hn')
        as [[-> ->]|(n & Hn & Hk & Hm & _)].
      * simpl. split; [intros _; right; by left|done].
      * rewrite Hm. destruct Hchain as [_ Hmarks].
        rewrite (Hmarks i n Hn), elem_of_app.
        apply lookup_lt_Some in Hn. split; [tauto|].
        intros [?|[->|?]]; [tauto|lia|tauto].
  - unfold key_at. by rewrite Hnew.
  - rewrite set_next_length. simpl. rewrite length_app. simpl. lia.
  - intros i n Hn.
    destruct (linked_lookup_old s pred new i n Hn) as (n' & Hn' & Hk & Hm & Hnx).
    exists n'. repeat split; [done..|].
    intros [Hmk|[=]]. apply Hnx.
    intros (l' & ->)%pred_after_None_inv.
    destruct (chain_unmarked _ _ i Hchain) as (n0 & Hn0 & Hu); [|congruence].
    rewrite !elem_of_app. left. right. apply list_elem_of_here.
Qed.

(** ** Erase *)

(** The arena after the writes of an erase: the mark of the node and the
    pointer of its predecessor. *)
Lemma unlinked_lookup s pred target c (i : nat) n' :
  nodes (set_next pred target (set_mark c s)) !! i = Some n' ->
  exists n, nodes s !! i = Some n /\ key n' = key n
    /\ marked n' = (if decide (i = c) then true else marked n)
    /\ (pred <> Some i -> next n' = next n)
    /\ (pred = Some i -> next n' = target).
Proof.
  intros Hn'.
  apply set_next_lookup in Hn' as (n0 & Hn0 & Hk & Hm & Hne & Heq).
  destruct (decide (i = c)) as [->|Hic].
  - simpl in Hn0. rewrite list_lookup_alter_eq in Hn0.
    destruct (nodes s !! c) as [n|]; [|done]. simpl in Hn0.
    injection Hn0 as <-. exists n. repeat split; [done..| |done].
    intros Hp. by rewrite (Hne Hp).
  - rewrite set_mark_lookup_ne in Hn0 by done.
    exists n0. repeat split; [done..| |done].
    intros Hp. by rewrite (Hne Hp).
Qed.

Lemma unlinked_lookup_old s pred target c (i : nat) n :
  nodes s !! i = Some n ->
  exists n', nodes (set_next pred target (set_mark c s)) !! i = Some n'
    /\ key n' = key n
    /\ marked n' = (if decide (i = c) then true else marked n)
    /\ (pred <> Some i -> next n' = next n).
Proof.
  intros Hn.
  assert (exists n0, nodes (set_mark c s) !! i = Some n0 /\ key n0 = key n
            /\ next n0 = next n
            /\ marked n0 = (if decide (i = c) then true else marked n))
    as (n0 & Hn0 & Hk & Hx & Hm).
  { destruct (decide (i = c)) as [->|Hic].
    - eexists. split; [by apply set_mark_lookup_eq|done].
    - exists n. by rewrite set_mark_lookup_ne. }
  destruct (decide (pred = Some i)) as [->|Hne].
  - eexists. split; [by apply set_next_lookup_eq|]. simpl. by repeat split.
  - exists n0. by rewrite set_next_lookup_ne.
Qed.

(** An erase at an unmarked node marks it and takes it out of the chain;
    the node keeps its key and its pointer. *)
Lemma erase_live s l c n :
  ordered s -> chain s l ->
  nodes s !! c = Some n -> marked n = false ->
  exists l1 l2 s', l = l1 ++ c :: l2
    /\ erase (Some c) s = Some (true, s')
    /\ ordered s'
    /\ chain s' (l1 ++ l2)
    /\ length (nodes s') = length (nodes s)
    /\ after_step (Some c) s s'.
Proof.
  intros Hord Hchain Hn Hu.
  assert (c ∈ l) as Hc by (destruct Hchain as [_ Hmarks]; by apply (Hmarks c n)).
  apply list_elem_of_split in Hc as (l1 & l2 & ->).
  set (pred := pred_after None l1).
  exists l1, l2, (set_next pred (next n) (set_mark c s)).
  split; [done|].
  pose proof Hchain as [Hpath Hmarks].
  assert (NoDup (l1 ++ c :: l2)) as Hnd by (by eapply seg_NoDup).
  pose proof (chain_sorted _ _ Hord Hchain) as Hsorted.
  pose proof Hpath as (mid & Hseg1 & Hseg2)%seg_app.
  destruct Hseg2 as (-> & n0 & Hn0 & Hseg2).
  assert (n0 = n) as -> by congruence.
  assert (c ∉ l1) as Hc1.
  { intros Hin. apply NoDup_app in Hnd as (_ & Hnd & _).
    apply (Hnd c Hin), list_elem_of_here. }
  assert (c ∉ l2) as Hc2.
  { intros Hin. apply NoDup_app in Hnd as (_ & _ & Hnd).
    by apply NoDup_cons in Hnd as [? _]. }
  assert (forall p, pred = Some p -> p ∈ l1 /\ p <> c /\ p ∉ l2) as Hpred.
  { intros p (l' & Hl')%pred_after_None_inv.
    assert (p ∈ l1) as Hp by (rewrite Hl', elem_of_app; right; apply list_elem_of_here).
    split; [done|]. split; [by intros ->|].
    intros Hin. apply NoDup_app in Hnd as (_ & Hnd & _).
    apply (Hnd p Hp). by right. }
  assert (forall i, i ∈ l1 -> key_at s i < key n) as Hbelow.
  { intros i Hi. rewrite fmap_app in Hsorted.
    rewrite <- (key_at_lookup _ _ _ Hn).
    apply (StronglySorted_app_1_elem_of _ _ _ _ _ Hsorted).
    - by apply list_elem_of_fmap_2.
    - simpl. apply list_elem_of_here. }
  pose proof (path_head _ _ _ Hseg2) as Hnext.
  assert (seg (set_mark c s) (head s) l1 (Some c)) as Hseg1'.
  { eapply seg_ext; [|done]. intros i Hi. apply set_mark_lookup_ne. by intros ->. }
  split; [|split; [|split; [|split]]].
  - unfold erase. rewrite Hn, Hu. unfold locate, fuel_of.
    assert (length (l1 ++ c :: l2) <= length (nodes s))%nat as Hlen
      by (by eapply seg_length).
    rewrite length_app in Hlen. simpl in Hlen.
    replace (length (nodes (set_mark c s))) with (length (nodes s))
      by (simpl; by rewrite length_alter).
    replace (S (length (nodes s)))
      with (length l1 + S (S (length (nodes s) - length l1 - 1)))%nat by lia.
    change (head (set_mark c s)) with (head s).
    rewrite (search_prefix _ (key n) l1 _ _ _ _ Hseg1').
    + fold pred.
      rewrite (search_marked _ _ _ _ _ _ (set_mark_lookup_eq _ _ _ Hn) eq_refl).
      simpl next. rewrite Hnext. destruct l2 as [|j l2]; [by rewrite search_end|].
      simpl hd_error.
      destruct (chain_unmarked _ _ j Hchain) as (m & Hm & Hum).
      { rewrite elem_of_app, !elem_of_cons. tauto. }
      destruct (unlinked_lookup_old s pred (Some j) c j m Hm) as (m' & Hm' & Hk & Hmk & _).
      rewrite decide_False, Hum in Hmk by (intros ->; apply Hc2; by left).
      assert (key n < key m).
      { rewrite fmap_app in Hsorted. apply StronglySorted_app_1_r in Hsorted.
        simpl in Hsorted. apply StronglySorted_inv in Hsorted as [_ Hall].
        apply Forall_cons in Hall as [Hall _].
        by rewrite (key_at_lookup _ _ _ Hn), (key_at_lookup _ _ _ Hm) in Hall. }
      rewrite (search_stop _ _ _ _ _ _ Hm' Hmk); [done|lia].
    + apply Forall_forall. intros i Hi.
      destruct (chain_unmarked _ _ i Hchain) as (m & Hm & Hum).
      { rewrite elem_of_app. tauto. }
      exists m. rewrite set_mark_lookup_ne by (by intros ->).
      repeat split; [done..|]. rewrite <- (key_at_lookup _ _ _ Hm). by apply Hbelow.
  - intros i n' j Hn' Hnx.
    destruct (unlinked_lookup _ _ _ _ _ _ Hn') as (ni & Hni & Hk & _ & Hne & Heq).
    destruct (decide (pred = Some i)) as [Hp|Hp].
    + rewrite (Heq Hp) in Hnx.
      destruct (Hord _ _ _ Hn Hnx) as (m & Hm & Hlt).
      destruct (unlinked_lookup_old s pred (next n) c j m Hm) as (m' & Hm' & Hk' & _).
      exists m'. split; [done|]. rewrite Hk, Hk'.
      destruct (Hpred i Hp) as (Hi & _). specialize (Hbelow i Hi).
      rewrite (key_at_lookup _ _ _ Hni) in Hbelow. lia.
    + rewrite (Hne Hp) in Hnx.
      destruct (Hord _ _ _ Hni Hnx) as (m & Hm & Hlt).
      destruct (unlinked_lookup_old s pred (next n) c j m Hm) as (m' & Hm' & Hk' & _).
      exists m'. split; [done|]. lia.
  - split.
    + unfold path. apply seg_app. exists (next n). split.
      * destruct pred as [p|] eqn:Hp.
        -- destruct (pred_after_None_inv _ _ Hp) as (l' & ->).
           change (head (set_next (Some p) (next n) (set_mark c s))) with (head s).
           eapply seg_set_next_last; [|done].
           apply NoDup_app in Hnd as (Hnd & _).
           apply NoDup_app in Hnd as (_ & Hnd & _).
           intros Hin. apply (Hnd p Hin), list_elem_of_here.
        -- apply pred_after_None_nil in Hp as ->. done.
      * apply seg_set_next_other; [intros p Hp; by apply Hpred|].
        eapply seg_ext; [|done]. intros i Hi. apply set_mark_lookup_ne.
        by intros ->.
    + intros i n' Hn'.
      destruct (unlinked_lookup _ _ _ _ _ _ Hn') as (ni & Hni & _ & Hmk & _).
      rewrite Hmk. case_decide as Hic.
      * subst i. split; [done|]. rewrite elem_of_app. tauto.
      * rewrite (Hmarks i ni Hni), !elem_of_app, elem_of_cons. tauto.
  - rewrite set_next_length. simpl. by rewrite length_alter.
  - intros i m Hm.
    destruct (unlinked_lookup_old s pred (next n) c i m Hm) as (m' & Hm' & Hk & Hmk & Hnx).
    exists m'. split; [done|]. split; [done|]. split.
    + rewrite Hmk. destruct (decide (i = c)) as [->|Hic].
      * by rewrite decide_True.
      * rewrite decide_False; [done|congruence].
    + intros Hdead. apply Hnx. intros Hp. destruct (Hpred i Hp) as (Hi & Hne & _).
      destruct Hdead as [Hmk'|[= ->]]; [|done].
      destruct (chain_unmarked _ _ i Hchain) as (m0 & Hm0 & Hu0); [|congruence].
      rewrite elem_of_app. by left.
Qed.

Lemma erase_none s : erase None s = Some (false, s).
Proof. done. Qed.

Lemma erase_marked s c n :
  nodes s !! c = Some n -> marked n = true -> erase (Some c) s = Some (false, s).
Proof. intros Hn Hm. unfold erase. by rewrite Hn, Hm. Qed.

Lemma erase_dangling s c : nodes s !! c = None -> erase (Some c) s = Some (false, s).
Proof. intros Hn. unfold erase. by rewrite Hn. Qed.

(** ** Every call returns and keeps the list well formed *)

Lemma wf_empty : wf empty.
Proof.
  split; [intros i n j Hn; simpl in Hn; by rewrite lookup_nil in Hn|].
  exists []. split; [done|]. intros i n Hn. simpl in Hn. by rewrite lookup_nil in Hn.
Qed.

Lemma grows_refl s : grows s s.
Proof. intros i n Hn. by exists n. Qed.

Lemma grows_trans s1 s2 s3 : grows s1 s2 -> grows s2 s3 -> grows s1 s3.
Proof.
  intros H12 H23 i n Hn.
  destruct (H12 i n Hn) as (n2 & Hn2 & Hk2 & Hm2).
  destruct (H23 i n2 Hn2) as (n3 & Hn3 & Hk3 & Hm3).
  exists n3. split; [done|]. split; [congruence|]. auto.
Qed.

Lemma after_step_grows e s s' : after_step e s s' -> grows s s'.
Proof.
  intros Hstep i n Hn. destruct (Hstep i n Hn) as (n' & Hn' & Hk & Hm & _).
  exists n'. split; [done|]. split; [done|].
  intros Hmk. rewrite Hm, Hmk. by case_decide.
Qed.

Lemma find_clean s k : wf s -> exists it, find k s = Some (it, s).
Proof.
  intros (Hord & l & Hchain).
  destruct (locate_clean s l k Hord Hchain) as (l1 & l2 & _ & _ & _ & _ & _ & Hloc).
  unfold find. rewrite Hloc. eauto.
Qed.

(** What a call does to a well-formed list: nothing; or it links a node for
    a new key into the chain; or it marks a node of the chain and takes it
    out. *)
Lemma step_effect o s : wf s ->
  exists s', step o s = Some s' /\ wf s'
    /\ (s' = s
        \/ (exists l1 l2,
              chain s (l1 ++ l2) /\ chain s' (l1 ++ length (nodes s) :: l2)
              /\ after_step None s s')
        \/ (exists l1 e l2,
              chain s (l1 ++ e :: l2) /\ chain s' (l1 ++ l2)
              /\ after_step (Some e) s s')).
Proof.
  intros Hwf. pose proof Hwf as (Hord & l & Hchain).
  destruct o as [k|k|[c|]]; unfold step.
  - destruct (decide (k ∈ key_at s <$> l)) as [Hin|Hnin].
    + rewrite (insert_present s l k Hord Hchain Hin). simpl.
      exists s. eauto.
    + destruct (insert_absent s l k Hord Hchain Hnin)
        as (l1 & l2 & s' & -> & _ & _ & -> & Hord' & Hchain' & _ & _ & Hstep).
      simpl. exists s'. split; [done|]. split; [split; eauto|].
      right. left. eauto.
  - destruct (find_clean s k Hwf) as (it & ->). simpl. exists s. eauto.
  - destruct (nodes s !! c) as [n|] eqn:Hn.
    + destruct (marked n) eqn:Hm.
      * rewrite (erase_marked s c n Hn Hm). simpl. exists s. eauto.
      * destruct (erase_live s l c n Hord Hchain Hn Hm)
          as (l1 & l2 & s' & -> & -> & Hord' & Hchain' & _ & Hstep).
        simpl. exists s'. split; [done|]. split; [split; eauto|].
        right. right. eauto 6.
    + rewrite (erase_dangling s c Hn). simpl. exists s. eauto.
  - rewrite erase_none. simpl. exists s. eauto.
Qed.

Lemma step_wf o s : wf s -> exists s', step o s = Some s' /\ wf s' /\ grows s s'.
Proof.
  intros Hwf.
  destruct (step_effect o s Hwf) as (s' & Hstep & Hwf' & Hcases).
  exists s'. split; [done|]. split; [done|].
  destruct Hcases as [->|[(l1 & l2 & _ & _ & Hs)|(l1 & e & l2 & _ & _ & Hs)]];
    eauto using grows_refl, after_step_grows.
Qed.

Lemma run_wf ops : forall s, wf s ->
  exists s', run ops s = Some s' /\ wf s' /\ grows s s'.
Proof.
  induction ops as [|o ops IH]; intros s Hwf; simpl.
  - exists s. eauto using grows_refl.
  - destruct (step_wf o s Hwf) as (s1 & -> & Hwf1 & Hg1).
    destruct (IH s1 Hwf1) as (s2 & Hrun & Hwf2 & Hg2).
    exists s2. eauto using grows_trans.
Qed.

Lemma run_wf_inv ops s s' : wf s -> run ops s = Some s' -> wf s' /\ grows s s'.
Proof.
  intros Hwf Hrun. destruct (run_wf ops s Hwf) as (s2 & Hrun2 & Hwf2 & Hg).
  assert (s2 = s') as -> by congruence. done.
Qed.

(** ** The walk of an iterator *)

Lemma skip_end fuel after s : skip (S fuel) after None s = Some None.
Proof. done. Qed.

Lemma skip_stop fuel after j s m :
  nodes s !! j = Some m -> marked m = false ->
  match after with Some x => x < key m | None => True end ->
  skip (S fuel) after (Some j) s = Some (Some j).
Proof.
  intros Hm Hu Hx. simpl. rewrite Hm, Hu. simpl.
  destruct after as [x|]; [|done].
  by destruct (Z.leb_spec (key m) x); [lia|].
Qed.

Lemma begin_chain s l : chain s l -> begin s = Some (hd_error l).
Proof.
  intros Hchain. pose proof Hchain as [Hpath _].
  unfold begin, fuel_of. rewrite (path_head _ _ _ Hpath).
  destruct l as [|j l]; [done|].
  destruct (chain_unmarked s _ j Hchain) as (m & Hm & Hu); [apply list_elem_of_here|].
  by eapply skip_stop.
Qed.

(** From an unmarked node the increment leads to the next node of the
    chain. *)
Lemma increment_live s l1 c l2 :
  ordered s -> chain s (l1 ++ c :: l2) ->
  increment (Some c) s = Some (hd_error l2).
Proof.
  intros Hord Hchain. pose proof Hchain as [Hpath _].
  apply seg_app in Hpath as (mid & _ & (-> & n & Hn & Hseg)).
  destruct (chain_unmarked s _ c Hchain) as (n' & Hn' & Hlive).
  { rewrite elem_of_app, !elem_of_cons. tauto. }
  assert (n' = n) as -> by congruence.
  unfold increment, fuel_of. rewrite Hn, Hlive, (path_head _ _ _ Hseg).
  destruct l2 as [|j l2]; [done|].
  destruct (chain_unmarked s _ j Hchain) as (m & Hm & Hu).
  { rewrite elem_of_app, !elem_of_cons. tauto. }
  eapply skip_stop; [done..|].
  destruct Hseg as (Hnx & m' & Hm' & _).
  destruct (Hord _ _ _ Hn Hnx) as (m'' & Hm'' & Hlt). congruence.
Qed.

Lemma drain_chain s : ordered s -> forall l2 l1 fuel,
  chain s (l1 ++ l2) -> (length l2 < fuel)%nat ->
  drain fuel (hd_error l2) s = Some (key_at s <$> l2).
Proof.
  intros Hord. induction l2 as [|c l2 IH]; intros l1 fuel Hchain Hfuel.
  - destruct fuel; [lia|done].
  - destruct fuel as [|fuel]; [lia|]. simpl in Hfuel.
    destruct (chain_unmarked s _ c Hchain) as (n & Hn & _).
    { rewrite elem_of_app, elem_of_cons. tauto. }
    cbn [drain hd_error]. rewrite Hn.
    rewrite (increment_live s l1 c l2 Hord Hchain).
    rewrite (IH (l1 ++ [c]) fuel); [|by rewrite <- (assoc_L (++))|lia].
    simpl. by rewrite (key_at_lookup _ _ _ Hn).
Qed.

(** The values of a well-formed list are the keys of its chain. *)
Lemma values_chain s l : ordered s -> chain s l -> values s = Some (key_at s <$> l).
Proof.
  intros Hord Hchain. unfold values. rewrite (begin_chain s l Hchain).
  apply (drain_chain s Hord l []); [done|].
  unfold fuel_of. destruct Hchain as [Hpath _].
  pose proof (seg_length _ _ _ _ Hord Hpath). lia.
Qed.

(** The walk from a marked node, too, comes to an end: the keys ascend, and
    the nodes with a greater key get fewer. *)
Lemma above_mono (x y : Z) (l : list node) :
  x <= y -> (above y l <= above x l)%nat.
Proof.
  intros Hxy. unfold above. induction l as [|n l IH]; [done|].
  rewrite !filter_cons.
  destruct (decide (y < key n)), (decide (x < key n)); simpl; lia.
Qed.

Lemma above_lt (x : Z) (l : list node) (j : nat) m :
  l !! j = Some m -> x < key m -> (above (key m) l < above x l)%nat.
Proof.
  unfold above. revert j. induction l as [|n l IH]; intros j Hm Hx; [done|].
  rewrite !filter_cons. destruct j as [|j]; simpl in Hm.
  - injection Hm as ->.
    rewrite decide_False by lia. rewrite decide_True by done. simpl.
    pose proof (above_mono x (key m) l). unfold above in *. lia.
  - specialize (IH j Hm Hx).
    destruct (decide (key m < key n)), (decide (x < key n)); simpl; lia.
Qed.

Lemma above_length (l : list node) (c : nat) n :
  l !! c = Some n -> (above (key n) l < length l)%nat.
Proof.
  unfold above. revert c. induction l as [|n0 l IH]; intros c Hn; [done|].
  rewrite filter_cons. destruct c as [|c]; simpl in Hn.
  - injection Hn as ->. rewrite decide_False by lia. simpl.
    pose proof (length_filter (fun n0 => key n < key n0) l). lia.
  - specialize (IH c Hn). case_decide; simpl; lia.
Qed.

Lemma skip_total s after : ordered s -> forall fuel cur,
  match cur with
  | None => (0 < fuel)%nat
  | Some c => exists n, nodes s !! c = Some n /\ (S (above (key n) (nodes s)) < fuel)%nat
  end ->
  exists r, skip fuel after cur s = Some r
    /\ match r with
       | None => True
       | Some j => exists m, nodes s !! j = Some m /\ marked m = false
                     /\ match after with Some x => x < key m | None => True end
       end.
Proof.
  intros Hord. induction fuel as [|fuel IH]; intros cur Hcur.
  - destruct cur as [c|]; [destruct Hcur as (? & _ & ?)|]; lia.
  - destruct cur as [c|]; [|by exists None].
    destruct Hcur as (n & Hn & Hfuel). simpl. rewrite Hn.
    destruct (marked n
              || match after with Some x => key n <=? x | None => false end) eqn:Hskip.
    + apply IH. destruct (next n) as [j|] eqn:Hnx; [|lia].
      destruct (Hord _ _ _ Hn Hnx) as (m & Hm & Hlt).
      exists m. split; [done|].
      pose proof (above_lt (key n) (nodes s) j m Hm Hlt). lia.
    + exists (Some c). split; [done|]. exists n.
      apply orb_false_elim in Hskip as [Hu Hx].
      repeat split; [done..|]. destruct after as [x|]; [|done].
      by apply Z.leb_gt.
Qed.

(** An increment returns, from any node: at the end, or at an unmarked node
    with a greater key. *)
Lemma increment_total s c n :
  wf s -> nodes s !! c = Some n ->
  exists r, increment (Some c) s = Some r
    /\ match r with
       | None => True
       | Some j => exists m, nodes s !! j = Some m /\ marked m = false /\ key n < key m
       end.
Proof.
  intros (Hord & l & Hchain) Hn. unfold increment. rewrite Hn.
  apply (skip_total s (Some (key n)) Hord). unfold fuel_of.
  destruct (marked n).
  - destruct Hchain as [Hpath _]. rewrite (path_head _ _ _ Hpath).
    destruct l as [|j l]; simpl; [lia|].
    destruct Hpath as (_ & m & Hm & _). exists m. split; [done|].
    pose proof (above_length (nodes s) j m Hm). lia.
  - destruct (next n) as [j|] eqn:Hnx; [|lia].
    destruct (Hord _ _ _ Hn Hnx) as (m & Hm & _).
    exists m. split; [done|].
    pose proof (above_length (nodes s) j m Hm). lia.
Qed.

Lemma insert_sorted_app k (v1 v2 : list Z) :
  Forall (fun x => x < k) v1 ->
  match v2 with [] => True | y :: _ => k <= y end ->
  insert_sorted k (v1 ++ v2) = v1 ++ k :: v2.
Proof.
  intros Hlt Hge. induction v1 as [|x v1 IH]; simpl.
  - destruct v2 as [|y v2]; [done|]. simpl.
    by destruct (Z.ltb_spec y k); [lia|].
  - apply Forall_cons in Hlt as [Hx Hlt].
    destruct (Z.ltb_spec x k); [|lia]. by rewrite IH.
Qed.

Lemma run_empty_wf ops s : run ops empty = Some s -> wf s.
Proof. intros Hrun. by destruct (run_wf_inv ops empty s wf_empty Hrun). Qed.

(** Every run of calls on the empty list returns. *)
Lemma run_total ops : exists s, run ops empty = Some s.
Proof. destruct (run_wf ops empty wf_empty) as (s & Hrun & _). eauto. Qed.

(** Claim C4. On any list that inserts, finds and erases have built, [insert(k)]
    returns, with true and the key put at its place in the ascending values
    when the key is not among them, with false and the list as it was when
    it is; a second [insert(k)] returns false and leaves the list, so its
    values, their order and their number, as it is. *)
Theorem insert_once (ops : list op) (s : skiplist) (k : Z) :
  run ops empty = Some s ->
  exists v b s',
    values s = Some v
    /\ StronglySorted Z.lt v
    /\ insert k s = Some (b, s')
    /\ b = negb (bool_decide (k ∈ v))
    /\ values s' = Some (if b then insert_sorted k v else v)
    /\ (b = false -> s' = s)
    /\ insert k s' = Some (false, s').
Proof.
  intros (Hord & l & Hchain)%run_empty_wf.
  exists (key_at s <$> l).
  pose proof (values_chain s l Hord Hchain) as Hvalues.
  pose proof (chain_sorted s l Hord Hchain) as Hsorted.
  destruct (decide (k ∈ key_at s <$> l)) as [Hin|Hnin].
  - exists false, s. rewrite bool_decide_eq_true_2 by done.
    pose proof (insert_present s l k Hord Hchain Hin). by repeat split.
  - destruct (insert_absent s l k Hord Hchain Hnin)
      as (l1 & l2 & s' & -> & Hlt & Hgt & Hins & Hord' & Hchain' & Hk & _ & Hold).
    exists true, s'. rewrite bool_decide_eq_false_2 by done.
    assert (forall i, i ∈ l1 ++ l2 -> key_at s' i = key_at s i) as Hkeys.
    { intros i Hi. destruct (chain_unmarked s _ i Hchain Hi) as (n & Hn & _).
      destruct (Hold i n Hn) as (n' & Hn' & Hkn & _).
      by rewrite (key_at_lookup _ _ _ Hn), (key_at_lookup _ _ _ Hn'). }
    assert (key_at s' <$> l1 ++ length (nodes s) :: l2
            = (key_at s <$> l1) ++ k :: (key_at s <$> l2)) as Hv'.
    { rewrite fmap_app, fmap_cons, Hk. f_equal; [|f_equal].
      - apply Forall_fmap_ext_1, Forall_forall. intros i Hi. apply Hkeys.
        apply elem_of_app. by left.
      - apply Forall_fmap_ext_1, Forall_forall. intros i Hi. apply Hkeys.
        apply elem_of_app. by right. }
    repeat split; [done..| | |].
    + rewrite (values_chain s' _ Hord' Hchain'), Hv', fmap_app.
      rewrite insert_sorted_app; [done|by apply Forall_fmap|].
      destruct l2 as [|j l2]; [done|]. simpl.
      apply Forall_cons in Hgt as [Hj _]. lia.
    + done.
    + apply (insert_present s' _ k Hord' Hchain'). rewrite Hv'.
      apply elem_of_app. right. apply list_elem_of_here.
Qed.

(** Wherever [begin], [find] or an increment puts an iterator, it stands on
    an unmarked node, and after [find(k)] on one with key [k]. *)
Lemma iterator_on_live_node s c :
  wf s ->
  begin s = Some (Some c)
  \/ (exists k s', find k s = Some (Some c, s'))
  \/ (exists it, increment it s = Some (Some c)) ->
  exists n, nodes s !! c = Some n /\ marked n = false.
Proof.
  intros Hwf. pose proof Hwf as (Hord & l & Hchain).
  intros [Hb|[(k & s' & Hf)|([c0|] & Hi)]].
  - rewrite (begin_chain s l Hchain) in Hb. injection Hb as Hb.
    apply (chain_unmarked s l c Hchain). by apply head_Some_elem_of.
  - destruct (locate_clean_key s l k Hord Hchain)
      as (l1 & l2 & -> & _ & _ & _ & Hloc & _).
    unfold find in Hf. rewrite Hloc in Hf.
    destruct (holds k (hd_error l2) s); [|done]. injection Hf as Hf _.
    apply (chain_unmarked s _ c Hchain), elem_of_app. right.
    by apply head_Some_elem_of.
  - destruct (nodes s !! c0) as [n0|] eqn:Hn0.
    + destruct (increment_total s c0 n0 Hwf Hn0) as (r & Hinc & Hr).
      rewrite Hinc in Hi. injection Hi as ->.
      destruct Hr as (m & Hm & Hu & _). eauto.
    + unfold increment in Hi. by rewrite Hn0 in Hi.
  - done.
Qed.

(** ** Where an increment leads after the list has changed *)







(** ** What the tests do with a list *)

(** The tests of [skiplist_test.cpp] insert some keys, erase at [begin()]
    or at [find(k)], and compare the values with what they expect. What
    they check on their keys holds of the modelled list for all keys. *)

Lemma after_step_keys e s s' l l' :
  chain s l -> after_step e s s' -> l' ⊆ l ->
  key_at s' <$> l' = key_at s <$> l'.
Proof.
  intros Hchain Hstep Hsub. apply Forall_fmap_ext_1, Forall_forall. intros i Hi.
  destruct (chain_unmarked s l i Hchain (Hsub _ Hi)) as (n & Hn & _).
  destruct (Hstep i n Hn) as (n' & Hn' & Hk & _).
  by rewrite (key_at_lookup _ _ _ Hn), (key_at_lookup _ _ _ Hn').
Qed.

Lemma without_one (l1 l2 : list nat) (c : nat) : l1 ++ l2 ⊆ l1 ++ c :: l2.
Proof. intros i. rewrite !elem_of_app, elem_of_cons. tauto. Qed.

Lemma part_left (l1 l2 : list nat) : l1 ⊆ l1 ++ l2.
Proof. intros i. rewrite elem_of_app. tauto. Qed.

Lemma part_right (l1 l2 : list nat) : l2 ⊆ l1 ++ l2.
Proof. intros i. rewrite elem_of_app. tauto. Qed.

Lemma chain_empty l : chain empty l -> l = [].
Proof. intros [Hpath _]. destruct l; [done|]. by destruct Hpath. Qed.

(** [find(k)] stands on the node of the chain with key [k], or at the end
    when there is none, and leaves the list alone. *)
Lemma find_chain s l k :
  ordered s -> chain s l ->
  exists it, find k s = Some (it, s)
    /\ match it with
       | Some c => c ∈ l /\ key_at s c = k
       | None => k ∉ key_at s <$> l
       end.
Proof.
  intros Hord Hchain.
  destruct (locate_clean_key s l k Hord Hchain)
    as (l1 & l2 & -> & _ & _ & _ & Hloc & Hholds).
  unfold find. rewrite Hloc.
  destruct (decide (k ∈ key_at s <$> l1 ++ l2)) as [Hin|Hnin].
  - rewrite Hholds. exists (hd_error l2). split; [done|].
    destruct l2 as [|c l2]; [done|]. simpl in *.
    split; [apply elem_of_app; right; apply list_elem_of_here|].
    unfold key_at. destruct (nodes s !! c) as [n|]; [|done]. by apply Z.eqb_eq.
  - destruct Hholds as [-> _]. by exists None.
Qed.

Lemma sorted_NoDup (v : list Z) : StronglySorted Z.lt v -> NoDup v.
Proof.
  induction 1 as [|x v _ IH Hx]; constructor; [|done].
  intros Hin. rewrite Forall_forall in Hx. specialize (Hx x Hin). lia.
Qed.

Lemma filter_out_absent (k : Z) (v : list Z) :
  k ∉ v -> filter (fun x => x <> k) v = v.
Proof.
  induction v as [|x v IH]; intros Hk; [done|].
  apply not_elem_of_cons in Hk as [Hne Hk].
  rewrite filter_cons, decide_True by done. by rewrite IH.
Qed.

Lemma filter_out_sorted (k : Z) (v1 v2 : list Z) :
  StronglySorted Z.lt (v1 ++ k :: v2) ->
  filter (fun x => x <> k) (v1 ++ k :: v2) = v1 ++ v2.
Proof.
  intros Hnd%sorted_NoDup.
  apply NoDup_app in Hnd as (_ & Hk1 & Hnd). apply NoDup_cons in Hnd as [Hk2 _].
  rewrite filter_app, filter_cons, decide_False by (intros Hne; by apply Hne).
  rewrite !filter_out_absent; [done..|].
  intros Hin. apply (Hk1 k Hin), list_elem_of_here.
Qed.

(** What [insert(k)] does to the keys of the chain. *)
Lemma insert_keys s l k :
  ordered s -> chain s l ->
  exists b s' l', insert k s = Some (b, s') /\ ordered s' /\ chain s' l'
    /\ forall x, x ∈ key_at s' <$> l' <-> x = k \/ x ∈ key_at s <$> l.
Proof.
  intros Hord Hchain.
  destruct (decide (k ∈ key_at s <$> l)) as [Hin|Hnin].
  - exists false, s, l. rewrite (insert_present s l k Hord Hchain Hin).
    split; [done|]. split; [done|]. split; [done|].
    intros x. split; [by right|]. by intros [->|].
  - destruct (insert_absent s l k Hord Hchain Hnin)
      as (l1 & l2 & s' & -> & _ & _ & Hins & Hord' & Hchain' & Hk & _ & Hstep).
    exists true, s', (l1 ++ length (nodes s) :: l2).
    split; [done|]. split; [done|]. split; [done|]. intros x.
    rewrite !fmap_app, fmap_cons, Hk, !elem_of_app, elem_of_cons.
    rewrite (after_step_keys None s s' _ l1 Hchain Hstep) by apply part_left.
    rewrite (after_step_keys None s s' _ l2 Hchain Hstep) by apply part_right.
    tauto.
Qed.

Lemma inserts_keys (ks : list Z) : forall s l,
  ordered s -> chain s l ->
  exists s' l', run (op_insert <$> ks) s = Some s' /\ ordered s' /\ chain s' l'
    /\ forall x, x ∈ key_at s' <$> l' <-> x ∈ ks \/ x ∈ key_at s <$> l.
Proof.
  induction ks as [|k ks IH]; intros s l Hord Hchain.
  - exists s, l. split; [done|]. split; [done|]. split; [done|].
    intros x. split; [by right|].
    intros [Hin|]; [|done]. by apply elem_of_nil in Hin.
  - destruct (insert_keys s l k Hord Hchain) as (b & s1 & l1 & Hins & Hord1 & Hchain1 & Hk).
    destruct (IH s1 l1 Hord1 Hchain1) as (s' & l' & Hrun & Hord' & Hchain' & Hks).
    exists s', l'. rewrite fmap_cons. cbn [run step]. rewrite Hins. simpl.
    split; [done|]. split; [done|]. split; [done|].
    intros x. rewrite Hks, Hk, elem_of_cons. tauto.
Qed.

(** Extra X15. In the list as modelled from the specification: after the
    inserts of any keys, in any order and with repeats, into the empty list,
    the values are these keys, each once, in strictly ascending order;
    [find] of a key that was inserted stands on that key, [find] of another
    is at the end, and neither changes the list. *)
Theorem inserts_give_ascending_values (ks : list Z) :
  exists s v,
    run (op_insert <$> ks) empty = Some s
    /\ values s = Some v
    /\ StronglySorted Z.lt v
    /\ (forall k, k ∈ v <-> k ∈ ks)
    /\ forall k, exists it,
         find k s = Some (it, s)
         /\ deref it s = if bool_decide (k ∈ ks) then Some k else None.
Proof.
  destruct wf_empty as (Hord0 & l0 & Hchain0).
  destruct (inserts_keys ks empty l0 Hord0 Hchain0) as (s & l & Hrun & Hord & Hchain & Hks).
  apply chain_empty in Hchain0 as ->.
  exists s, (key_at s <$> l). split; [done|]. split; [by apply values_chain|].
  split; [by apply chain_sorted|].
  assert (forall k, k ∈ key_at s <$> l <-> k ∈ ks) as Hin.
  { intros k. rewrite Hks. split; [|by left]. intros [|Hnil]; [done|].
    by apply elem_of_nil in Hnil. }
  split; [done|]. intros k.
  destruct (find_chain s l k Hord Hchain) as (it & Hfind & Hit).
  exists it. split; [done|]. destruct it as [c|].
  - destruct Hit as [Hc Hk].
    destruct (chain_unmarked s l c Hchain Hc) as (n & Hn & _).
    rewrite bool_decide_eq_true_2.
    + simpl. rewrite Hn. simpl. by rewrite <- Hk, (key_at_lookup _ _ _ Hn).
    + apply Hin. rewrite <- Hk. by apply list_elem_of_fmap_2.
  - rewrite bool_decide_eq_false_2; [done|]. by rewrite <- Hin.
Qed.

(** Extra X16. In the list as modelled from the specification: on any list
    that inserts, finds and erases have built, [erase(find(k))] returns
    true exactly when [k] is among the values and leaves the other values
    as they are, in their order; when [k] is not there it returns false
    and changes nothing. *)
Theorem erase_find_takes_key_out (ops : list op) (s : skiplist) (k : Z) :
  run ops empty = Some s ->
  exists v it b s',
    values s = Some v
    /\ find k s = Some (it, s)
    /\ erase it s = Some (b, s')
    /\ b = bool_decide (k ∈ v)
    /\ values s' = Some (filter (fun x => x <> k) v)
    /\ (b = false -> s' = s).
Proof.
  intros (Hord & l & Hchain)%run_empty_wf.
  exists (key_at s <$> l). rewrite (values_chain s l Hord Hchain).
  destruct (find_chain s l k Hord Hchain) as (it & Hfind & Hit). exists it.
  destruct it as [c|].
  - destruct Hit as [Hc Hk].
    destruct (chain_unmarked s l c Hchain Hc) as (n & Hn & Hu).
    destruct (erase_live s l c n Hord Hchain Hn Hu)
      as (l1 & l2 & s' & -> & Herase & Hord' & Hchain' & _ & Hstep).
    exists true, s'. split; [done|]. split; [done|]. split; [done|].
    split; [|split; [|done]].
    + symmetry. apply bool_decide_eq_true_2. rewrite <- Hk.
      by apply list_elem_of_fmap_2.
    + rewrite (values_chain s' _ Hord' Hchain'). f_equal.
      rewrite (after_step_keys _ s s' _ _ Hchain Hstep) by apply without_one.
      pose proof (chain_sorted s _ Hord Hchain) as Hsorted.
      rewrite fmap_app, fmap_cons, Hk in Hsorted.
      rewrite !fmap_app, fmap_cons, Hk. symmetry. by apply filter_out_sorted.
  - exists false, s. rewrite erase_none. split; [done|]. split; [done|]. split; [done|].
    split; [|split; [|done]].
    + symmetry. by apply bool_decide_eq_false_2.
    + rewrite (values_chain s l Hord Hchain). f_equal. symmetry.
      by apply filter_out_absent.
Qed.

(** Extra X17. In the list as modelled from the specification: on any list
    that inserts, finds and erases have built, [begin()] stands on the
    least value and [erase(begin())] takes it out and returns true, the
    other values staying as they are; on a list without values [begin()]
    is the end and the erase returns false and changes nothing. *)
Theorem erase_begin_takes_least (ops : list op) (s : skiplist) :
  run ops empty = Some s ->
  exists v it b s',
    values s = Some v
    /\ begin s = Some it
    /\ deref it s = hd_error v
    /\ erase it s = Some (b, s')
    /\ b = negb (bool_decide (v = []))
    /\ values s' = Some (tl v)
    /\ (b = false -> s' = s).
Proof.
  intros (Hord & l & Hchain)%run_empty_wf.
  exists (key_at s <$> l), (hd_error l).
  rewrite (values_chain s l Hord Hchain), (begin_chain s l Hchain).
  destruct l as [|c l'].
  - exists false, s. rewrite (values_chain s [] Hord Hchain). by repeat split.
  - destruct (chain_unmarked s _ c Hchain) as (n & Hn & Hu); [apply list_elem_of_here|].
    destruct (erase_live s _ c n Hord Hchain Hn Hu)
      as (l1 & l2 & s' & Hl & Herase & Hord' & Hchain' & _ & Hstep).
    assert (l1 = [] /\ l2 = l') as [-> ->].
    { pose proof (seg_NoDup s _ _ _ Hord (proj1 Hchain)) as Hnd.
      destruct l1 as [|c1 l1]; simpl in Hl; [by injection Hl as ->|].
      injection Hl as <- ->. apply NoDup_cons in Hnd as [Hnin _].
      destruct Hnin. apply elem_of_app. right. apply list_elem_of_here. }
    exists true, s'. split; [done|]. split; [done|]. split.
    { simpl. rewrite Hn. simpl. by rewrite (key_at_lookup _ _ _ Hn). }
    split; [done|]. split; [done|]. split; [|done].
    rewrite (values_chain s' _ Hord' Hchain'). simpl. f_equal.
    apply (after_step_keys _ s s' _ _ Hchain Hstep), (without_one [] l' c).
Qed.

(** Extra X18. In the list as modelled from the specification: an erase
    through an iterator returns true once. After [erase(it)] returned
    true, [erase(it)] returns false and changes nothing, whatever inserts,
    finds and erases came in between, also when the key of the node has
    been inserted again. *)
Theorem erase_succeeds_once (ops ops' : list op) (s s' s'' : skiplist) (c : nat) :
  run ops empty = Some s ->
  erase (Some c) s = Some (true, s') ->
  run ops' s' = Some s'' ->
  erase (Some c) s'' = Some (false, s'').
Proof.
  intros (Hord & l & Hchain)%run_empty_wf Herase Hrun.
  destruct (nodes s !! c) as [n|] eqn:Hn;
    [|by rewrite (erase_dangling s c Hn) in Herase].
  destruct (marked n) eqn:Hm; [by rewrite (erase_marked s c n Hn Hm) in Herase|].
  destruct (erase_live s l c n Hord Hchain Hn Hm)
    as (l1 & l2 & s1 & _ & Herase1 & Hord1 & Hchain1 & _ & Hstep).
  assert (s1 = s') as -> by congruence.
  destruct (Hstep c n Hn) as (n' & Hn' & _ & Hm' & _).
  rewrite decide_True in Hm' by done.
  assert (wf s') as Hwf' by (split; eauto).
  destruct (run_wf_inv ops' s' s'' Hwf' Hrun) as [_ Hgrows].
  destruct (Hgrows c n' Hn') as (n'' & Hn'' & _ & Hm'').
  apply (erase_marked s'' c n'' Hn''). by apply Hm''.
Qed.

(** ** The properties at work *)

(** The keys of the tests are decimal fractions; here they are scaled by
    ten to the seventh: 8.9988 is 89988000, 15.6788 is 156788000,
    1000.4050001 is 10004050001, 5233.05 is 52330500000, 8000 is
    80000000000, 10000.4050001 is 100004050001. *)

(** The empty list: [begin() == end()], [find] is at the end, [erase] of
    [begin()] returns false. *)
Example empty_list :
  begin empty = Some None
  /\ find 89988000 empty = Some (None, empty)
  /\ erase None empty = Some (false, empty)
  /\ values empty = Some [].
Proof. repeat split. Qed.

(** [skiplist_test.insert_duplicate] *)
Example insert_duplicate :
  (s ← run [op_insert 89988000; op_insert 156788000;
            op_insert 89988000; op_insert 52330500000] empty;
   values s)
  = Some [89988000; 156788000; 52330500000].
Proof. vm_compute. reflexivity. Qed.

(** [skiplist_test.insert_lower] *)
Example insert_lower :
  (s ← run [op_insert 80000000000; op_insert 10004050001; op_insert 52330500000;
            op_insert 89988000; op_insert 156788000] empty;
   values s)
  = Some [89988000; 156788000; 10004050001; 52330500000; 80000000000].
Proof. vm_compute. reflexivity. Qed.

(** [skiplist_test.erase_head_on_a_few], [erase_tail_on_a_few] and
    [erase_mid_on_a_few]: [erase(begin())], [erase(find(8000))] and
    [erase(find(5233.05))] on the list of [insert_lower]. *)
Example erase_on_a_few :
  (s ← run [op_insert 80000000000; op_insert 10004050001; op_insert 52330500000;
            op_insert 89988000; op_insert 156788000] empty;
   it ← begin s;
   at_head ← erase it s;
   v_head ← values at_head.2;
   found ← find 80000000000 s;
   at_tail ← erase found.1 found.2;
   v_tail ← values at_tail.2;
   found' ← find 52330500000 s;
   at_mid ← erase found'.1 found'.2;
   v_mid ← values at_mid.2;
   Some (v_head, v_tail, v_mid))
  = Some ([156788000; 10004050001; 52330500000; 80000000000],
          [89988000; 156788000; 10004050001; 52330500000],
          [89988000; 156788000; 10004050001; 80000000000]).
Proof. vm_compute. reflexivity. Qed.

(** An iterator on 5, with 8 and 9 behind it. Its node is erased, then 8 is
    erased and 6 inserted: its increment leads to 6, the least of the keys
    above 5 that are in the list now. *)
Example iterator_after_erasures :
  (s ← run [op_insert 5; op_insert 8; op_insert 9;
            op_erase (Some 0%nat); op_erase (Some 1%nat); op_insert 6] empty;
   v ← values s;
   it ← increment (Some 0%nat) s;
   y ← deref it s;
   Some (v, y))
  = Some ([6; 9], 6).
Proof. vm_compute. reflexivity. Qed.

(** [skiplist_test.invalidated_iterator_still_works]: the keys the iterator
    yields, one after the other. *)
Example invalidated_iterator_still_works :
  (s1 ← run [op_insert 80000000000; op_insert 52330500000; op_insert 89988000] empty;
   it0 ← begin s1;
   k0 ← deref it0 s1;
   s2 ← run [op_insert 156788000] s1;
   it1 ← increment it0 s2;
   k1 ← deref it1 s2;
   it2 ← increment it1 s2;
   k2 ← deref it2 s2;
   s3 ← run [op_insert 100004050001] s2;
   it3 ← increment it2 s3;
   k3 ← deref it3 s3;
   found ← find 80000000000 s3;
   erased ← erase found.1 found.2;
   it4 ← increment it3 erased.2;
   k4 ← deref it4 erased.2;
   Some (erased.1, [k0; k1; k2; k3; k4]))
  = Some (true, [89988000; 156788000; 52330500000; 80000000000; 100004050001]).
Proof. vm_compute. reflexivity. Qed.

Lemma insert_once_witness :
  exists v b s',
    values {| nodes := [{| key := 8; next := Some 1%nat; marked := false |};
                        {| key := 15; next := None; marked := false |}];
              head := Some 0%nat |} = Some v
    /\ StronglySorted Z.lt v
    /\ insert 8 {| nodes := [{| key := 8; next := Some 1%nat; marked := false |};
                             {| key := 15; next := None; marked := false |}];
                   head := Some 0%nat |} = Some (b, s')
    /\ b = negb (bool_decide (8 ∈ v))
    /\ values s' = Some (if b then insert_sorted 8 v else v)
    /\ (b = false ->
        s' = {| nodes := [{| key := 8; next := Some 1%nat; marked := false |};
                          {| key := 15; next := None; marked := false |}];
                head := Some 0%nat |})
    /\ insert 8 s' = Some (false, s').
Proof.
  apply (insert_once [op_insert 8; op_insert 15]).
  vm_compute. reflexivity.
Defined.

(** The list after [insert(5)], [insert(8)], with the iterator on 5, and
    then [insert(6)] and the erase of 5, the node of the iterator. *)
Abbreviation five_erased :=
  {| nodes := [{| key := 5; next := Some 2%nat; marked := true |};
               {| key := 8; next := None; marked := false |};
               {| key := 6; next := Some 1%nat; marked := false |}];
     head := Some 2%nat |}.


(** In that list the increment from the erased 5 leads to 6, the key that
    was inserted behind it. *)
Example iterator_finds_later_insert :
  values five_erased = Some [6; 8]
  /\ (it ← increment (Some 0%nat) five_erased; deref it five_erased) = Some 6.
Proof. split; vm_compute; reflexivity. Qed.

(** The list after [insert(8)] and [insert(15)]. *)
Abbreviation two_keys :=
  {| nodes := [{| key := 8; next := Some 1%nat; marked := false |};
               {| key := 15; next := None; marked := false |}];
     head := Some 0%nat |}.

(** [erase(find(15))] on the list of 8 and 15 leaves 8. *)
Lemma erase_find_takes_key_out_witness :
  exists v it b s',
    values two_keys = Some v
    /\ find 15 two_keys = Some (it, two_keys)
    /\ erase it two_keys = Some (b, s')
    /\ b = bool_decide (15 ∈ v)
    /\ values s' = Some (filter (fun x => x <> 15) v)
    /\ (b = false -> s' = two_keys).
Proof.
  apply (erase_find_takes_key_out [op_insert 8; op_insert 15]).
  vm_compute. reflexivity.
Defined.

(** [erase(begin())] on the list of 8 and 15 leaves 15. *)
Lemma erase_begin_takes_least_witness :
  exists v it b s',
    values two_keys = Some v
    /\ begin two_keys = Some it
    /\ deref it two_keys = hd_error v
    /\ erase it two_keys = Some (b, s')
    /\ b = negb (bool_decide (v = []))
    /\ values s' = Some (tl v)
    /\ (b = false -> s' = two_keys).
Proof.
  apply (erase_begin_takes_least [op_insert 8; op_insert 15]).
  vm_compute. reflexivity.
Defined.

(** 8 is erased through an iterator and inserted again: a second erase
    through the iterator returns false and the new 8 stays. *)
Lemma erase_succeeds_once_witness :
  erase (Some 0%nat)
    {| nodes := [{| key := 8; next := Some 1%nat; marked := true |};
                 {| key := 15; next := None; marked := false |};
                 {| key := 8; next := Some 1%nat; marked := false |}];
       head := Some 2%nat |}
  = Some (false,
          {| nodes := [{| key := 8; next := Some 1%nat; marked := true |};
                       {| key := 15; next := None; marked := false |};
                       {| key := 8; next := Some 1%nat; marked := false |}];
             head := Some 2%nat |}).
Proof.
  apply (erase_succeeds_once [op_insert 8; op_insert 15] [op_insert 8] two_keys
           {| nodes := [{| key := 8; next := Some 1%nat; marked := true |};
                        {| key := 15; next := None; marked := false |}];
              head := Some 1%nat |}).
  - vm_compute. reflexivity.
  - vm_compute. reflexivity.
  - vm_compute. reflexivity.
Defined.

End SkiplistTheory.
